(** * elchi-discovery: node inventory and delivery client

    A shallow embedding of the two packages that carry the program's
    contracts:

    - [discovery]: [getNodeRoles], [getNodeStatus], [getClusterInfo],
      [DiscoverNodes];
    - [api] (client.go): [extractProjectFromToken], [GetDiscoveryPayload],
      [sendDiscoveryResult] and the [initialCompleted] flag of [Client].

    Go strings are byte strings and are modelled by [string]; Go [int] by
    [Z]; Go maps by [gmap]; an [error] by its message, [nil] by [None].
    The Kubernetes API, the JSON encoder and the HTTP transport are the
    environment: every call into them is answered by an oracle that the
    functions below take as an argument. *)

From stdpp Require Import base option list strings gmap pretty.

Open Scope Z_scope.
Open Scope string_scope.
Open Scope list_scope.

(** ** Go's [strings] package, as far as client.go uses it *)

Module strings.

(** [s[:n]] *)
Fixpoint slice_to (n : nat) (s : string) : string :=
  match n, s with
  | S k, String a s' => String a (slice_to k s')
  | _, _ => ""
  end.

(** [s[n:]] *)
Fixpoint slice_from (n : nat) (s : string) : string :=
  match n, s with
  | S k, String _ s' => slice_from k s'
  | _, _ => s
  end.

(** [strings.HasPrefix(s, prefix)] *)
Fixpoint HasPrefix (s prefix : string) {struct prefix} : bool :=
  match prefix, s with
  | "", _ => true
  | String a p, String b s' => if decide (a = b) then HasPrefix s' p else false
  | String _ _, "" => false
  end.

(** [strings.Index(s, substr)]: the byte offset of the first occurrence
    of [substr] in [s], or [-1]. [Index_from] carries the offset of the
    suffix that is still to be scanned. *)
Fixpoint Index_from (i : Z) (s substr : string) : Z :=
  if HasPrefix s substr then i
  else match s with
       | "" => -1
       | String _ s' => Index_from (i + 1) s' substr
       end.

Definition Index (s substr : string) : Z := Index_from 0 s substr.

(** The loop of [genSplit]: [k] is [n - i], the number of iterations the
    condition [i < n] still allows; the list is [a[:i+1]] from index [i]
    on. *)
Fixpoint genSplit_loop (k : nat) (s sep : string) : list string :=
  match k with
  | O => [s]
  | S k' =>
      let m := Index s sep in
      if bool_decide (m < 0) then [s]
      else slice_to (Z.to_nat m) s
             :: genSplit_loop k' (slice_from (Z.to_nat m + String.length sep) s) sep
  end.

(** [strings.SplitN(s, sep, n)] for a non-empty separator and a count
    [n >= 0], which is how client.go calls it ([sep = "--"], [n = 2]).
    [n = 0] returns nil; a count above [len(s) + 1] is clamped. *)
Definition SplitN (s sep : string) (n : nat) : list string :=
  match n with
  | O => []
  | S _ =>
      let n := if bool_decide (String.length s + 1 < n)%nat
               then (String.length s + 1)%nat else n in
      genSplit_loop (n - 1) s sep
  end.

End strings.

(** ** Package [config] and [discovery]'s result types

    The type declarations are read off the composite literals and field
    accesses in the [discovery] package, client.go and main.go. *)

Record ElchiConfig := {
  APIEndpoint : string;
  Token : string;
  InsecureSkipVerify : bool
}.

Record Config := {
  Elchi : ElchiConfig;
  ClusterName : string
}.

Record ClusterInfo := {
  ci_Name : string;
  ci_Version : string
}.

Record NodeInfo := {
  ni_Name : string;
  ni_Roles : list string;
  ni_Status : string;
  ni_Version : string;
  ni_Addresses : gmap string string
}.

(** [Timestamp] is a [time.Time], kept as nanoseconds since the epoch. *)
Record DiscoveryResult := {
  Timestamp : Z;
  dr_ClusterInfo : ClusterInfo;
  NodeCount : Z;
  Nodes : list NodeInfo;
  Duration : string
}.

(** ** Package [api] *)

(** [error] values are compared by their message. *)
Definition error := string.

Record DiscoveryPayload := {
  Project : string;
  Data : DiscoveryResult
}.

(** [APIResponse]; the [Result] field ([interface{}]) is never read. *)
Record APIResponse := {
  Success : bool;
  Message : string;
  Error : string
}.

Definition extractProjectFromToken (token : string) : string :=
  let parts := strings.SplitN token "--" 2 in
  if decide (length parts = 2%nat) then default "" (parts !! 1%nat) else "".

(** The [net/http] values that client.go builds and inspects. [Header.Set]
    replaces the value stored under a key; keys are kept as the source
    writes them. *)
Record Request := {
  Method : string;
  URL : string;
  Header : gmap string string;
  Body : string
}.

Definition Header_Set (key value : string) (req : Request) : Request :=
  {| Method := Method req; URL := URL req;
     Header := <[key := value]> (Header req); Body := Body req |}.

(** A response is its status code and the outcome of
    [json.NewDecoder(resp.Body).Decode(&apiResponse)]: the decoded value,
    or the decoder's error. *)
Record Response := {
  StatusCode : Z;
  Decoded : APIResponse + error
}.

(** The environment of one send: [json.Marshal], the URL check inside
    [http.NewRequest], and [httpClient.Do]. *)
Record World := {
  json_Marshal : DiscoveryPayload -> string + error;
  http_NewRequest : string -> string -> option error;
  http_Do : Request -> Response + error
}.

Record HTTPClient := {
  tls_InsecureSkipVerify : bool;
  Timeout : Z
}.

Record Client := {
  httpClient : HTTPClient;
  config : Config;
  initialCompleted : bool
}.

Definition Second : Z := 1000000000.

Definition NewClient (cfg : Config) : Client :=
  {| httpClient := {| tls_InsecureSkipVerify := InsecureSkipVerify (Elchi cfg);
                      Timeout := 15 * Second |};
     config := cfg;
     initialCompleted := false |}.

(** [c.initialCompleted.Store(b)] *)
Definition initialCompleted_Store (b : bool) (c : Client) : Client :=
  {| httpClient := httpClient c; config := config c; initialCompleted := b |}.

(** What a send does to the outside: log lines (level and message; the
    structured fields are dropped) and calls of [httpClient.Do]. *)
Inductive Level := LDebug | LInfo | LWarn | LError.

Inductive Event :=
| Log (lvl : Level) (msg : string)
| HTTPDo (req : Request).

(** The result of a send: the returned [error] ([None] is [nil]), the
    client afterwards, and the events in program order. *)
Record Outcome := {
  oc_err : option error;
  oc_client : Client;
  oc_events : list Event
}.

Definition GetDiscoveryPayload (c : Client) (result : DiscoveryResult)
  : DiscoveryPayload + error :=
  let projectID := extractProjectFromToken (Token (Elchi (config c))) in
  if decide (projectID = "") then
    inr "invalid token format: expected 'uuid--project' format"
  else inl {| Project := projectID; Data := result |}.

(** [fmt.Sprintf("%d", n)] *)
Definition fmt_d (n : Z) : string := pretty n.

(** client.go 133-144: the headers of the request. *)
Definition setHeaders (c : Client) (req : Request) : Request :=
  let req := Header_Set "Content-Type" "application/json" req in
  let req := Header_Set "from-elchi" "yes" req in
  let req := if initialCompleted c
             then Header_Set "initial" "false" req
             else Header_Set "initial" "true" req in
  if decide (Token (Elchi (config c)) ≠ "")
  then Header_Set "Authorization" ("Bearer " +:+ Token (Elchi (config c))) req
  else req.

(** client.go 153-209: what [sendDiscoveryResult] does with the response;
    [ev] are the events so far. *)
Definition interpretResponse (c : Client) (ev : list Event) (resp : Response)
  : Outcome :=
  if bool_decide (StatusCode resp < 200) || bool_decide (StatusCode resp >= 300) then
    match Decoded resp with
    | inl apiResponse =>
        if decide (Error apiResponse ≠ "") then
          {| oc_err := Some ("API error (HTTP " +:+ fmt_d (StatusCode resp) +:+ "): "
                             +:+ Error apiResponse);
             oc_client := c;
             oc_events := ev ++ [Log LError "API returned error response"] |}
        else
          {| oc_err := Some ("API returned non-success status: "
                             +:+ fmt_d (StatusCode resp));
             oc_client := c;
             oc_events := ev ++ [Log LError "API returned non-success HTTP status"] |}
    | inr _ =>
        {| oc_err := Some ("API returned non-success status: "
                           +:+ fmt_d (StatusCode resp));
           oc_client := c;
           oc_events := ev ++ [Log LError "API returned non-success HTTP status"] |}
    end
  else
  match Decoded resp with
  | inr _ =>
      {| oc_err := None; oc_client := c;
         oc_events := ev ++ [Log LWarn
           "Failed to parse API response, but HTTP status indicates success"] |}
  | inl apiResponse =>
      if Success apiResponse then
        {| oc_err := None;
           oc_client := initialCompleted_Store true c;
           oc_events := ev ++ [Log LInfo
             "Discovery result processed successfully by API"] |}
      else
        {| oc_err := Some ("API processing failed: " +:+ Error apiResponse);
           oc_client := c;
           oc_events := ev ++ [Log LError
             "API reported processing error for discovery result"] |}
  end.

Definition sendDiscoveryResult (w : World) (c : Client)
    (result : DiscoveryResult) (shouldSend : bool) : Outcome :=
  let endpoint := APIEndpoint (Elchi (config c)) in
  if bool_decide (endpoint = "") || negb shouldSend then
    {| oc_err := None; oc_client := c;
       oc_events := [Log LDebug "No API endpoint configured, skipping send"] |}
  else
  match GetDiscoveryPayload c result with
  | inr err => {| oc_err := Some err; oc_client := c; oc_events := [] |}
  | inl payload =>
  let ev := [Log LDebug "Successfully extracted project from token"] in
  match json_Marshal w payload with
  | inr err =>
      {| oc_err := Some ("failed to marshal discovery payload: " +:+ err);
         oc_client := c; oc_events := ev |}
  | inl jsonData =>
  let ev := ev ++ [Log LDebug "Sending discovery payload to API"] in
  match http_NewRequest w "POST" endpoint with
  | Some err =>
      {| oc_err := Some ("failed to create request: " +:+ err);
         oc_client := c; oc_events := ev |}
  | None =>
  let req := {| Method := "POST"; URL := endpoint; Header := ∅; Body := jsonData |} in
  let req := setHeaders c req in
  let ev := ev ++ [HTTPDo req] in
  match http_Do w req with
  | inr err =>
      {| oc_err := Some ("failed to send request: " +:+ err);
         oc_client := c; oc_events := ev |}
  | inl resp => interpretResponse c ev resp
  end end end end.

Definition SendDiscoveryResult (w : World) (c : Client)
    (result : DiscoveryResult) : Outcome :=
  sendDiscoveryResult w c result true.

(** Successive ticks on one client: each tick brings its own environment
    and report; the list pairs every send with the client it started from. *)
Fixpoint run (c : Client) (ticks : list (World * DiscoveryResult))
  : list (Client * World * Outcome) :=
  match ticks with
  | [] => []
  | (w, r) :: rest =>
      let o := SendDiscoveryResult w c r in
      (c, w, o) :: run (oc_client o) rest
  end.

(** ** Package [discovery] *)

(** The parts of [v1.Node] that the package reads. [v1.NodeConditionType],
    [v1.ConditionStatus] and [v1.NodeAddressType] are string types. *)
Record Taint := {
  Key : string;
  Value : string;
  Effect : string
}.

Record NodeCondition := {
  cond_Type : string;
  cond_Status : string
}.

Record NodeAddress := {
  addr_Type : string;
  Address : string
}.

Record Node := {
  Name : string;
  Labels : gmap string string;
  Taints : list Taint;
  Conditions : list NodeCondition;
  Addresses : list NodeAddress;
  KubeletVersion : string
}.

Definition NodeReady : string := "Ready".
Definition ConditionTrue : string := "True".
Definition ConditionFalse : string := "False".

(** [_, ok := node.Labels[key]] *)
Definition label_ok (node : Node) (key : string) : bool :=
  bool_decide (is_Some (Labels node !! key)).

(** [slices.Contains(s, v)] *)
Fixpoint slices_Contains (s : list string) (v : string) : bool :=
  match s with
  | [] => false
  | x :: rest => if decide (x = v) then true else slices_Contains rest v
  end.

(** The [for _, taint := range node.Spec.Taints] loop with its [break]. *)
Fixpoint taint_loop (taints : list Taint) (roles : list string) : list string :=
  match taints with
  | [] => roles
  | taint :: rest =>
      if bool_decide (Key taint = "node-role.kubernetes.io/control-plane")
         || bool_decide (Key taint = "node-role.kubernetes.io/master")
      then roles ++ ["control-plane"]
      else taint_loop rest roles
  end.

Definition getNodeRoles (node : Node) : list string :=
  let roles : list string := [] in
  let roles :=
    if label_ok node "node-role.kubernetes.io/control-plane"
    then roles ++ ["control-plane"] else roles in
  let roles :=
    if label_ok node "node-role.kubernetes.io/master"
    then (if negb (slices_Contains roles "control-plane")
          then roles ++ ["master"] else roles)
    else roles in
  let roles :=
    if label_ok node "node-role.kubernetes.io/worker"
    then roles ++ ["worker"] else roles in
  let roles :=
    if label_ok node "node-role.kubernetes.io/etcd"
    then roles ++ ["etcd"] else roles in
  let roles :=
    if decide (length roles = 0%nat) then taint_loop (Taints node) roles
    else roles in
  let roles :=
    if decide (length roles = 0%nat) then roles ++ ["worker"] else roles in
  roles.

(** The condition loop of [getNodeStatus], on the list that is left. *)
Fixpoint status_loop (conditions : list NodeCondition) : string :=
  match conditions with
  | [] => "Unknown"
  | condition :: rest =>
      if decide (cond_Type condition = NodeReady) then
        if decide (cond_Status condition = ConditionTrue) then "Ready"
        else "NotReady"
      else status_loop rest
  end.

Definition getNodeStatus (node : Node) : string :=
  status_loop (Conditions node).

(** The cluster as the service sees it: the answer of
    [Discovery().ServerVersion()] (the [GitVersion] of the returned
    [*version.Info], [None] for a nil pointer, next to the error), the
    answer of [CoreV1().Nodes().List], the successive readings of
    [time.Now()], and [time.Duration.String]. *)
Record Cluster := {
  ServerVersion : option string * option error;
  Nodes_List : list Node + error;
  time_Now : nat -> Z;
  Duration_String : Z -> string
}.

Record Service := {
  client : Cluster;
  clusterName : string
}.

Definition NewService (client : Cluster) (clusterName : string) : Service :=
  {| client := client; clusterName := clusterName |}.

Definition getClusterInfo (s : Service) : ClusterInfo :=
  let info := {| ci_Name := clusterName s; ci_Version := "unknown" |} in
  match ServerVersion (client s) with
  | (Some gitVersion, None) => {| ci_Name := ci_Name info; ci_Version := gitVersion |}
  | _ => info
  end.

(** The inner loop of [DiscoverNodes]: [nodeInfo.Addresses[type] = address]
    for every reported address, in order. *)
Definition collectAddresses (addresses : list NodeAddress) : gmap string string :=
  foldl (λ m address, <[addr_Type address := Address address]> m) ∅ addresses.

(** One iteration of the outer loop, up to the [append]. *)
Definition nodeInfoOf (node : Node) : NodeInfo :=
  {| ni_Name := Name node;
     ni_Roles := getNodeRoles node;
     ni_Status := getNodeStatus node;
     ni_Version := KubeletVersion node;
     ni_Addresses := collectAddresses (Addresses node) |}.

Definition DiscoverNodes (s : Service) : DiscoveryResult + error :=
  let discoveryStart := time_Now (client s) 0 in
  let clusterInfo := getClusterInfo s in
  match Nodes_List (client s) with
  | inr err => inr err
  | inl items =>
      let result :=
        {| Timestamp := time_Now (client s) 1;
           dr_ClusterInfo := clusterInfo;
           NodeCount := Z.of_nat (length items);
           Nodes := [];
           Duration := Duration_String (client s)
                         (time_Now (client s) 2 - discoveryStart) |} in
      inl (foldl (λ result node,
                    {| Timestamp := Timestamp result;
                       dr_ClusterInfo := dr_ClusterInfo result;
                       NodeCount := NodeCount result;
                       Nodes := Nodes result ++ [nodeInfoOf node];
                       Duration := Duration result |})
                 result items)
  end.

(** ** Vocabulary of the statements *)

(** [p] is where the first occurrence of [sep] in [s] starts: no
    occurrence starts earlier. *)
Definition first_at (s sep p : string) : Prop :=
  ∀ p' q', s = p' +:+ sep +:+ q' → (String.length p ≤ String.length p')%nat.

(** [sub] occurs in [s]. *)
Definition Contains (s sub : string) : Prop :=
  ∃ p q, s = p +:+ sub +:+ q.

(** The request that a send builds from the marshalled payload. *)
Definition requestOf (c : Client) (jsonData : string) : Request :=
  setHeaders c {| Method := "POST"; URL := APIEndpoint (Elchi (config c));
                  Header := ∅; Body := jsonData |}.

(** The events of a send up to and including the call of [httpClient.Do]. *)
Definition eventsUpToDo (c : Client) (jsonData : string) : list Event :=
  [Log LDebug "Successfully extracted project from token";
   Log LDebug "Sending discovery payload to API";
   HTTPDo (requestOf c jsonData)].

(** The remote end confirmed the send: a request went out, the answer had a
    success-range status and its body decoded to [success = true]. *)
Definition ConfirmedSuccess (w : World) (o : Outcome) : Prop :=
  ∃ req resp a, HTTPDo req ∈ oc_events o ∧ http_Do w req = inl resp
    ∧ 200 ≤ StatusCode resp < 300 ∧ Decoded resp = inl a ∧ Success a = true.


(** ** Sample environments *)

Definition sample_config (endpoint token : string) : Config :=
  {| Elchi := {| APIEndpoint := endpoint; Token := token;
                 InsecureSkipVerify := false |};
     ClusterName := "test-cluster" |}.

Definition empty_report : DiscoveryResult :=
  {| Timestamp := 0;
     dr_ClusterInfo := {| ci_Name := "test-cluster"; ci_Version := "v1.28.2" |};
     NodeCount := 0; Nodes := []; Duration := "100ms" |}.

(** An environment in which the payload marshals, the URL parses and the
    transport returns [answer] for every request. *)
Definition world_answering (answer : Response + error) : World :=
  {| json_Marshal := λ _, inl "{}";
     http_NewRequest := λ _ _, None;
     http_Do := λ _, answer |}.

(** An environment in which nothing works: had the send consulted it, the
    send would have failed. *)
Definition world_broken : World :=
  {| json_Marshal := λ _, inr "json: unsupported value";
     http_NewRequest := λ _ _, Some "parse error";
     http_Do := λ _, inr "connection refused" |}.

Definition response_success : Response :=
  {| StatusCode := 200;
     Decoded := inl {| Success := true;
                       Message := "Discovery processed successfully";
                       Error := "" |} |}.

Definition response_unreadable : Response :=
  {| StatusCode := 200; Decoded := inr "invalid character 'i'" |}.

Definition response_bad_request : Response :=
  {| StatusCode := 400;
     Decoded := inl {| Success := false; Message := "";
                       Error := "Invalid cluster configuration" |} |}.

(** The taint test of [getNodeRoles]. *)
Definition control_plane_taint (taint : Taint) : bool :=
  bool_decide (Key taint = "node-role.kubernetes.io/control-plane")
  || bool_decide (Key taint = "node-role.kubernetes.io/master").

(** Role derivation in the order the specification gives it: the roles read
    off the labels ("control-plane", else "master"; then "worker"; then
    "etcd"); if there are none, "control-plane" for a control-plane or
    master taint; if there is none either, "worker". *)
Definition roles_by_rule (node : Node) : list string :=
  let from_labels :=
    (if label_ok node "node-role.kubernetes.io/control-plane" then ["control-plane"]
     else if label_ok node "node-role.kubernetes.io/master" then ["master"]
     else [])
    ++ (if label_ok node "node-role.kubernetes.io/worker" then ["worker"] else [])
    ++ (if label_ok node "node-role.kubernetes.io/etcd" then ["etcd"] else []) in
  match from_labels with
  | _ :: _ => from_labels
  | [] => if existsb control_plane_taint (Taints node) then ["control-plane"]
          else ["worker"]
  end.

(** The conditions of type "Ready", in list order. *)
Definition ready_conditions (node : Node) : list NodeCondition :=
  filter (λ condition, cond_Type condition = NodeReady) (Conditions node).

Definition sample_node (name : string) (labels : gmap string string)
    (taints : list Taint) (conditions : list NodeCondition) : Node :=
  {| Name := name; Labels := labels; Taints := taints;
     Conditions := conditions;
     Addresses := [{| addr_Type := "InternalIP"; Address := "192.168.1.10" |}];
     KubeletVersion := "v1.28.2" |}.

Definition sample_cluster (version : option string * option error)
    (listing : list Node + error) : Cluster :=
  {| ServerVersion := version; Nodes_List := listing;
     time_Now := λ k, 1000 + Z.of_nat k;
     Duration_String := λ d, pretty d +:+ "ns" |}.

(** ** The rest of the repository *)

(** client.go 110-118: the preview of the payload that goes into the debug
    line. [previewLen] is the bound of the slice expression
    [jsonData[:previewLen]]. *)
Definition previewLen (jsonData : string) : Z :=
  let previewLen := 200 in
  if bool_decide (Z.of_nat (String.length jsonData) < previewLen)
  then Z.of_nat (String.length jsonData) else previewLen.

Definition jsonPreview (jsonData : string) : string :=
  let preview := strings.slice_to (Z.to_nat (previewLen jsonData)) jsonData in
  if bool_decide (Z.of_nat (String.length jsonData) > 200)
  then preview +:+ "..." else preview.

(** *** Package [config]

    [config.Config] in full. The fields that the client and the collector
    read, [Elchi] and [ClusterName], are the record [Config] above; [Log]
    and [DiscoveryInterval] sit beside it. *)
Record LogConfig := {
  lc_Level : string;
  lc_Format : string;
  lc_Output : string
}.

Record FullConfig := {
  fc_base : Config;
  fc_Log : LogConfig;
  fc_DiscoveryInterval : Z
}.

(** The process environment and the libraries that [config] calls:
    the variables ([os.Getenv] returns "" for a variable that is not set),
    [os.UserHomeDir], whether [os.Stat] returns a nil error, [os.ReadFile],
    [filepath.Join], [yaml.Unmarshal] into an existing config,
    [strconv.Atoi] and [strconv.ParseBool]. *)
Record OS := {
  environ : gmap string string;
  os_UserHomeDir : string + error;
  os_Stat_ok : string -> bool;
  os_ReadFile : string -> string + error;
  filepath_Join : list string -> string;
  yaml_Unmarshal : string -> FullConfig -> FullConfig + error;
  strconv_Atoi : string -> Z + error;
  strconv_ParseBool : string -> bool + error
}.

Definition os_Getenv (os : OS) (key : string) : string :=
  default "" (environ os !! key).

(** Field assignments [config.X = v]. *)
Definition set_DiscoveryInterval (v : Z) (c : FullConfig) : FullConfig :=
  {| fc_base := fc_base c; fc_Log := fc_Log c; fc_DiscoveryInterval := v |}.

Definition set_ClusterName (v : string) (c : FullConfig) : FullConfig :=
  {| fc_base := {| Elchi := Elchi (fc_base c); ClusterName := v |};
     fc_Log := fc_Log c; fc_DiscoveryInterval := fc_DiscoveryInterval c |}.

Definition set_Log (f : LogConfig -> LogConfig) (c : FullConfig) : FullConfig :=
  {| fc_base := fc_base c; fc_Log := f (fc_Log c);
     fc_DiscoveryInterval := fc_DiscoveryInterval c |}.

Definition set_Log_Level (v : string) : FullConfig -> FullConfig :=
  set_Log (λ l, {| lc_Level := v; lc_Format := lc_Format l; lc_Output := lc_Output l |}).

Definition set_Log_Format (v : string) : FullConfig -> FullConfig :=
  set_Log (λ l, {| lc_Level := lc_Level l; lc_Format := v; lc_Output := lc_Output l |}).

Definition set_Log_Output (v : string) : FullConfig -> FullConfig :=
  set_Log (λ l, {| lc_Level := lc_Level l; lc_Format := lc_Format l; lc_Output := v |}).

Definition set_Elchi (f : ElchiConfig -> ElchiConfig) (c : FullConfig) : FullConfig :=
  {| fc_base := {| Elchi := f (Elchi (fc_base c));
                   ClusterName := ClusterName (fc_base c) |};
     fc_Log := fc_Log c; fc_DiscoveryInterval := fc_DiscoveryInterval c |}.

Definition set_Token (v : string) : FullConfig -> FullConfig :=
  set_Elchi (λ e, {| APIEndpoint := APIEndpoint e; Token := v;
                     InsecureSkipVerify := InsecureSkipVerify e |}).

Definition set_APIEndpoint (v : string) : FullConfig -> FullConfig :=
  set_Elchi (λ e, {| APIEndpoint := v; Token := Token e;
                     InsecureSkipVerify := InsecureSkipVerify e |}).

Definition set_InsecureSkipVerify (v : bool) : FullConfig -> FullConfig :=
  set_Elchi (λ e, {| APIEndpoint := APIEndpoint e; Token := Token e;
                     InsecureSkipVerify := v |}).

(** [if val := os.Getenv(key); val != "" { config.X = val }] *)
Definition env_string (os : OS) (key : string)
    (set : string -> FullConfig -> FullConfig) (config : FullConfig) : FullConfig :=
  let val := os_Getenv os key in
  if decide (val ≠ "") then set val config else config.

Definition applyEnvironmentVariables (os : OS) (config : FullConfig) : FullConfig :=
  let config :=
    let val := os_Getenv os "DISCOVERY_INTERVAL" in
    if decide (val ≠ "") then
      match strconv_Atoi os val with
      | inl intVal => set_DiscoveryInterval intVal config
      | inr _ => config
      end
    else config in
  let config := env_string os "CLUSTER_NAME" set_ClusterName config in
  let config := env_string os "LOG_LEVEL" set_Log_Level config in
  let config := env_string os "LOG_FORMAT" set_Log_Format config in
  let config := env_string os "LOG_OUTPUT" set_Log_Output config in
  let config := env_string os "ELCHI_TOKEN" set_Token config in
  let config := env_string os "ELCHI_API_ENDPOINT" set_APIEndpoint config in
  let val := os_Getenv os "ELCHI_INSECURE_SKIP_VERIFY" in
  if decide (val ≠ "") then
    match strconv_ParseBool os val with
    | inl boolVal => set_InsecureSkipVerify boolVal config
    | inr _ => config
    end
  else config.

Definition getConfigPath (os : OS) : string :=
  let path := os_Getenv os "ELCHI_CONFIG" in
  if decide (path ≠ "") then path
  else
    let home_config :=
      match os_UserHomeDir os with
      | inl home =>
          let configPath := filepath_Join os [home; ".elchi"; "config.yaml"] in
          if os_Stat_ok os configPath then Some configPath else None
      | inr _ => None
      end in
    match home_config with
    | Some configPath => configPath
    | None => if os_Stat_ok os "config.yaml" then "config.yaml" else ""
    end.

Definition loadConfigFile (os : OS) (config : FullConfig) (path : string)
  : FullConfig + error :=
  match os_ReadFile os path with
  | inr err => inr err
  | inl data => yaml_Unmarshal os data config
  end.

Definition default_config : FullConfig :=
  {| fc_base := {| Elchi := {| APIEndpoint := ""; Token := "";
                               InsecureSkipVerify := false |};
                   ClusterName := "" |};
     fc_Log := {| lc_Level := "info"; lc_Format := "text"; lc_Output := "stdout" |};
     fc_DiscoveryInterval := 30 |}.

(** [config.Load] *)
Definition Load (os : OS) : FullConfig + error :=
  let config := default_config in
  let configPath := getConfigPath os in
  let loaded :=
    if decide (configPath ≠ "") then loadConfigFile os config configPath
    else inl config in
  match loaded with
  | inr err => inr err
  | inl config => inl (applyEnvironmentVariables os config)
  end.

Definition getEnvOrDefault (os : OS) (key defaultValue : string) : string :=
  let value := os_Getenv os key in
  if decide (value ≠ "") then value else defaultValue.

Definition getEnvOrDefaultInt (os : OS) (key : string) (defaultValue : Z) : Z :=
  let value := os_Getenv os key in
  if decide (value ≠ "") then
    match strconv_Atoi os value with
    | inl intValue => intValue
    | inr _ => defaultValue
    end
  else defaultValue.

Definition getEnvOrDefaultBool (os : OS) (key : string) (defaultValue : bool) : bool :=
  let value := os_Getenv os key in
  if decide (value ≠ "") then
    match strconv_ParseBool os value with
    | inl boolValue => boolValue
    | inr _ => defaultValue
    end
  else defaultValue.

(** *** Package [main] *)

(** Go [int64] arithmetic wraps around. *)
Definition wrap64 (z : Z) : Z := (z + 2 ^ 63) `mod` 2 ^ 64 - 2 ^ 63.

(** main.go 40-46: the tick interval, a [time.Duration] in nanoseconds.
    [int] is 64 bits wide. *)
Definition tickInterval (cfg : FullConfig) : Z :=
  let intervalSec := fc_DiscoveryInterval cfg in
  let intervalSec := if bool_decide (intervalSec <= 0) then 30 else intervalSec in
  wrap64 (wrap64 intervalSec * Second).

(** What [main] and [runDiscovery] do to the outside: their own log lines
    (level and message), a fatal log line, a line on standard output, and
    the events of the client. *)
Inductive MainEvent :=
| MLog (lvl : Level) (msg : string)
| MFatal (msg : string)
| Println (line : string)
| ClientEvent (e : Event).

(** [runDiscovery]: [indent] answers [json.MarshalIndent], [w] is the
    environment of the send, [discoveryService] holds the cluster as it is
    at this tick. Returns the client afterwards and the events in program
    order. *)
Definition runDiscovery (indent : DiscoveryPayload -> string + error) (w : World)
    (discoveryService : Service) (apiClient : Client) : Client * list MainEvent :=
  match DiscoverNodes discoveryService with
  | inr err => (apiClient, [MLog LError "Failed to discover nodes"])
  | inl result =>
  match GetDiscoveryPayload apiClient result with
  | inr err => (apiClient, [MLog LError "Failed to create discovery payload"])
  | inl payload =>
  match indent payload with
  | inr err =>
      (apiClient, [MLog LError "Failed to marshal discovery payload to JSON"])
  | inl jsonOutput =>
  let o := SendDiscoveryResult w apiClient result in
  (oc_client o,
   [Println jsonOutput]
   ++ (ClientEvent <$> oc_events o)
   ++ (match oc_err o with
       | Some _ => [MLog LError "Failed to send discovery result to API"]
       | None => []
       end)
   ++ [MLog LInfo "Discovery completed"])
  end end end.



(** The loop of [main], for the ticks that happen: [runDiscovery] once at
    startup and once per tick, on the same client. Each element of [rounds]
    is the environment of one round. *)
Fixpoint main_rounds (apiClient : Client)
    (rounds : list ((DiscoveryPayload -> string + error) * World * Service))
  : Client * list (list MainEvent) :=
  match rounds with
  | [] => (apiClient, [])
  | (indent, w, discoveryService) :: rest =>
      let '(apiClient', events) := runDiscovery indent w discoveryService apiClient in
      let '(final, later) := main_rounds apiClient' rest in
      (final, events :: later)
  end.

(** Sample process environments. *)
Definition sample_os (vars : gmap string string) : OS :=
  {| environ := vars;
     os_UserHomeDir := inr "$HOME is not defined";
     os_Stat_ok := λ _, false;
     os_ReadFile := λ _, inr "no such file or directory";
     filepath_Join := λ parts, foldr (λ p acc, p +:+ "/" +:+ acc) "" parts;
     yaml_Unmarshal := λ _ _, inr "yaml: unmarshal errors";
     strconv_Atoi := λ s, if decide (s = "60") then inl 60 else inr "invalid syntax";
     strconv_ParseBool := λ s, if decide (s = "true") then inl true
                               else if decide (s = "false") then inl false
                               else inr "invalid syntax" |}.

(** The requests among the events of a send, in order. *)
Definition requests (events : list Event) : list Request :=
  omap (λ e, match e with HTTPDo req => Some req | Log _ _ => None end) events.

(** The same process environment with other variables. *)
Definition with_environ (vars : gmap string string) (os : OS) : OS :=
  {| environ := vars;
     os_UserHomeDir := os_UserHomeDir os;
     os_Stat_ok := os_Stat_ok os;
     os_ReadFile := os_ReadFile os;
     filepath_Join := filepath_Join os;
     yaml_Unmarshal := yaml_Unmarshal os;
     strconv_Atoi := strconv_Atoi os;
     strconv_ParseBool := strconv_ParseBool os |}.
(** * Properties *)

(** ** Splitting on the first separator *)

Section Strings.
Import strings.
Local Arguments String.append !_ _ : simpl nomatch.

Lemma HasPrefix_app (p q : string) : HasPrefix (p +:+ q) p = true.
Proof.
  induction p as [|a p IH]; simpl; [done|].
  destruct (decide (a = a)); [exact IH | congruence].
Qed.

Lemma HasPrefix_inv (s p : string) :
  HasPrefix s p = true → ∃ q, s = p +:+ q.
Proof.
  revert s. induction p as [|a p IH]; intros s H; simpl in *.
  - by exists s.
  - destruct s as [|b s]; [done|].
    destruct (decide (a = b)) as [->|]; [|done].
    destruct (IH _ H) as [q ->]. by exists q.
Qed.

Lemma slice_to_app (p r : string) : slice_to (String.length p) (p +:+ r) = p.
Proof.
  induction p as [|a p IH]; simpl.
  - by destruct r.
  - by rewrite IH.
Qed.

Lemma slice_from_app (p r : string) :
  slice_from (String.length p) (p +:+ r) = r.
Proof.
  induction p as [|a p IH]; simpl; [by destruct r | exact IH].
Qed.

Lemma length_app (p r : string) :
  String.length (p +:+ r) = (String.length p + String.length r)%nat.
Proof. induction p as [|a p IH]; simpl; [done | by rewrite IH]. Qed.

Lemma app_assoc_s (p q r : string) : (p +:+ q) +:+ r = p +:+ (q +:+ r).
Proof. induction p as [|a p IH]; simpl; [done | by rewrite IH]. Qed.

(** [strings.Index] finds the first occurrence, or reports that there is
    none. *)
Lemma Index_from_spec (i : Z) (s sep : string) :
  (Index_from i s sep = -1 ∧ ∀ p q, s ≠ p +:+ sep +:+ q)
  ∨ (∃ p q, s = p +:+ sep +:+ q
           ∧ Index_from i s sep = i + Z.of_nat (String.length p)
           ∧ first_at s sep p).
Proof.
  revert i. induction s as [|a s IH]; intros i; simpl.
  - destruct (HasPrefix "" sep) eqn:Hp.
    + right. destruct (HasPrefix_inv _ _ Hp) as [q Hq].
      exists "", q. simpl. split; [done|]. split; [lia|].
      intros p' q' _. simpl. lia.
    + left. split; [done|]. intros p q Heq.
      destruct p; [|done]. simpl in Heq.
      rewrite Heq, HasPrefix_app in Hp. done.
  - destruct (HasPrefix (String a s) sep) eqn:Hp.
    + right. destruct (HasPrefix_inv _ _ Hp) as [q Hq].
      exists "", q. simpl. split; [done|]. split; [lia|].
      intros p' q' _. simpl. lia.
    + destruct (IH (i + 1)) as [[Hi Hno]|(p & q & Heq & Hi & Hmin)].
      * left. split; [done|]. intros p q Heq.
        destruct p as [|b p]; simpl in Heq.
        -- rewrite Heq, HasPrefix_app in Hp. done.
        -- injection Heq as _ Heq. by apply (Hno p q).
      * right. exists (String a p), q. simpl. split; [by rewrite Heq|].
        split; [lia|].
        intros p' q' Heq'. destruct p' as [|b p']; simpl in Heq'.
        -- rewrite Heq', HasPrefix_app in Hp. done.
        -- injection Heq' as _ Heq'. simpl. specialize (Hmin p' q' Heq'). lia.
Qed.

Lemma Index_spec (s sep : string) :
  (Index s sep = -1 ∧ ∀ p q, s ≠ p +:+ sep +:+ q)
  ∨ (∃ p q, s = p +:+ sep +:+ q
           ∧ Index s sep = Z.of_nat (String.length p)
           ∧ first_at s sep p).
Proof.
  unfold Index. destruct (Index_from_spec 0 s sep) as [?|(p & q & ? & ? & ?)];
    [by left | right; exists p, q; split_and!; [done | lia | done]].
Qed.

(** A first occurrence is unique. *)
Lemma first_at_unique (s sep p q p' q' : string) :
  s = p +:+ sep +:+ q → first_at s sep p →
  s = p' +:+ sep +:+ q' → first_at s sep p' →
  p = p' ∧ q = q'.
Proof.
  intros Hs Hp Hs' Hp'.
  assert (String.length p = String.length p') as Hlen.
  { specialize (Hp _ _ Hs'). specialize (Hp' _ _ Hs). lia. }
  assert (p = p') as <-.
  { rewrite <- (slice_to_app p (sep +:+ q)), <- Hs, Hs', Hlen.
    apply slice_to_app. }
  split; [done|].
  assert (sep +:+ q = sep +:+ q') as Hsq.
  { rewrite <- (slice_from_app p (sep +:+ q)), <- Hs, Hs'.
    apply slice_from_app. }
  rewrite <- (slice_from_app sep q), Hsq. apply slice_from_app.
Qed.

Lemma slice_from_sep (p sep q : string) :
  slice_from (String.length p + String.length sep) (p +:+ sep +:+ q) = q.
Proof.
  rewrite <- length_app, <- app_assoc_s. apply slice_from_app.
Qed.

(** [SplitN s sep 2] when [sep] occurs: the part before the first
    occurrence and everything after it. *)
Lemma SplitN_2_found (s sep p q : string) :
  sep ≠ "" → s = p +:+ sep +:+ q → first_at s sep p →
  SplitN s sep 2 = [p; q].
Proof.
  intros Hsep Hs Hfirst. unfold SplitN.
  assert (1 ≤ String.length s)%nat as Hlen.
  { rewrite Hs, !length_app. destruct sep; [done | simpl; lia]. }
  rewrite bool_decide_eq_false_2 by lia. simpl.
  destruct (Index_spec s sep) as [[_ Hno]|(p' & q' & Hs' & Hi & Hfirst')].
  - by destruct (Hno p q).
  - destruct (first_at_unique _ _ _ _ _ _ Hs Hfirst Hs' Hfirst') as [<- <-].
    rewrite Hi. rewrite bool_decide_eq_false_2 by lia.
    rewrite Nat2Z.id. rewrite Hs at 1 2.
    by rewrite slice_to_app, slice_from_sep.
Qed.

(** [SplitN s sep 2] when [sep] does not occur: the input, alone. *)
Lemma SplitN_2_absent (s sep : string) :
  (∀ p q, s ≠ p +:+ sep +:+ q) → SplitN s sep 2 = [s].
Proof.
  intros Hno. unfold SplitN. case_bool_decide; simpl.
  - assert (String.length s = 0%nat) as Hz by lia.
    rewrite Hz. done.
  - destruct (Index_spec s sep) as [[-> _]|(p & q & Hs & _)].
    + done.
    + by destruct (Hno p q).
Qed.

(** Either [sep] occurs, and then it has a first occurrence, or it does
    not occur. *)
Lemma first_occurrence_dec (s sep : string) :
  (∀ p q, s ≠ p +:+ sep +:+ q)
  ∨ (∃ p q, s = p +:+ sep +:+ q ∧ first_at s sep p).
Proof.
  destruct (Index_spec s sep) as [[_ ?]|(p & q & ? & _ & ?)];
    [by left | right; by exists p, q].
Qed.

End Strings.

(** ** The delivery client *)

(** Decides whether an event sits in a list that is written out. *)
Ltac event_in H :=
  repeat (rewrite ?elem_of_app, ?elem_of_cons, ?elem_of_nil in H);
  repeat match type of H with
         | _ ∨ _ => destruct H as [H|H]
         | False => destruct H
         | HTTPDo _ = Log _ _ => discriminate H
         end.

Section Send.
Implicit Types (w : World) (c : Client) (result : DiscoveryResult).
Implicit Types (req : Request) (resp : Response) (o : Outcome).

Lemma interpretResponse_events c ev resp :
  ∃ lvl msg, oc_events (interpretResponse c ev resp) = ev ++ [Log lvl msg].
Proof.
  unfold interpretResponse.
  repeat case_match; simpl; eauto.
Qed.

Lemma interpretResponse_Do c ev resp req :
  HTTPDo req ∈ oc_events (interpretResponse c ev resp) ↔ HTTPDo req ∈ ev.
Proof.
  destruct (interpretResponse_events c ev resp) as (lvl & msg & ->).
  rewrite elem_of_app, list_elem_of_singleton.
  split; [intros [?|?]; [done|discriminate] | by left].
Qed.

Lemma interpretResponse_config c ev resp :
  config (oc_client (interpretResponse c ev resp)) = config c.
Proof. unfold interpretResponse. by repeat case_match. Qed.

(** The flag after the response is read: set if it was set, or if the
    response confirms success; in every other case the client is the one
    that went in. *)
Lemma interpretResponse_client c ev resp :
  (oc_client (interpretResponse c ev resp) = initialCompleted_Store true c
   ∧ 200 ≤ StatusCode resp < 300
   ∧ ∃ a, Decoded resp = inl a ∧ Success a = true)
  ∨ (oc_client (interpretResponse c ev resp) = c
     ∧ ¬ (200 ≤ StatusCode resp < 300
          ∧ ∃ a, Decoded resp = inl a ∧ Success a = true)).
Proof.
  unfold interpretResponse.
  destruct (bool_decide (StatusCode resp < 200)) eqn:Hlo;
    [apply bool_decide_eq_true_1 in Hlo | apply bool_decide_eq_false_1 in Hlo];
  destruct (bool_decide (StatusCode resp >= 300)) eqn:Hhi;
    [apply bool_decide_eq_true_1 in Hhi | apply bool_decide_eq_false_1 in Hhi
    |apply bool_decide_eq_true_1 in Hhi | apply bool_decide_eq_false_1 in Hhi];
  simpl.
  1-3: right; split; [by repeat case_match | intros [? _]; lia].
  destruct (Decoded resp) as [a|e] eqn:Hd.
  - destruct (Success a) eqn:Hs; simpl.
    + left. split; [done|]. split; [lia|]. by exists a.
    + right. split; [done|]. intros (_ & a' & [= <-] & ?). congruence.
  - right. split; [done|]. intros (_ & a' & [=] & _).
Qed.

(** A send either stops before the transport is touched, leaving the
    client as it was, or goes through every earlier step and hands the
    request to [httpClient.Do]; the rest is the reading of the answer. *)
Lemma send_cases w c result shouldSend :
  let o := sendDiscoveryResult w c result shouldSend in
  (oc_client o = c ∧ ∀ req, HTTPDo req ∉ oc_events o)
  ∨ ∃ payload jsonData,
      APIEndpoint (Elchi (config c)) ≠ "" ∧ shouldSend = true
      ∧ GetDiscoveryPayload c result = inl payload
      ∧ json_Marshal w payload = inl jsonData
      ∧ http_NewRequest w "POST" (APIEndpoint (Elchi (config c))) = None
      ∧ o = match http_Do w (requestOf c jsonData) with
            | inr err => {| oc_err := Some ("failed to send request: " +:+ err);
                            oc_client := c;
                            oc_events := eventsUpToDo c jsonData |}
            | inl resp => interpretResponse c (eventsUpToDo c jsonData) resp
            end.
Proof.
  unfold sendDiscoveryResult.
  destruct (bool_decide (APIEndpoint (Elchi (config c)) = "")) eqn:He;
    [|apply bool_decide_eq_false_1 in He]; simpl.
  { left. split; [done|]. intros req H. by event_in H. }
  destruct shouldSend; simpl.
  2:{ left. split; [done|]. intros req H. by event_in H. }
  destruct (GetDiscoveryPayload c result) as [payload|e] eqn:Hp; simpl.
  2:{ left. split; [done|]. intros req H. by event_in H. }
  destruct (json_Marshal w payload) as [jsonData|e] eqn:Hm; simpl.
  2:{ left. split; [done|]. intros req H. by event_in H. }
  destruct (http_NewRequest w "POST" _) as [e|] eqn:Hn; simpl.
  { left. split; [done|]. intros req H. by event_in H. }
  right. exists payload, jsonData. split_and!; done.
Qed.

Lemma eventsUpToDo_Do c jsonData req :
  HTTPDo req ∈ eventsUpToDo c jsonData ↔ req = requestOf c jsonData.
Proof.
  unfold eventsUpToDo. split.
  - intros H. event_in H. by injection H.
  - intros ->. rewrite !elem_of_cons. auto.
Qed.

Lemma send_Do_inv w c result shouldSend req :
  HTTPDo req ∈ oc_events (sendDiscoveryResult w c result shouldSend) →
  ∃ payload jsonData,
    APIEndpoint (Elchi (config c)) ≠ "" ∧ shouldSend = true
    ∧ GetDiscoveryPayload c result = inl payload
    ∧ json_Marshal w payload = inl jsonData
    ∧ http_NewRequest w "POST" (APIEndpoint (Elchi (config c))) = None
    ∧ req = requestOf c jsonData
    ∧ sendDiscoveryResult w c result shouldSend =
        match http_Do w req with
        | inr err => {| oc_err := Some ("failed to send request: " +:+ err);
                        oc_client := c;
                        oc_events := eventsUpToDo c jsonData |}
        | inl resp => interpretResponse c (eventsUpToDo c jsonData) resp
        end.
Proof.
  intros H.
  destruct (send_cases w c result shouldSend)
    as [[_ Hno]|(payload & jsonData & He & Hs & Hp & Hm & Hn & Heq)].
  { by destruct (Hno req). }
  exists payload, jsonData.
  assert (req = requestOf c jsonData) as ->; [|by split_and!].
  rewrite Heq in H.
  destruct (http_Do w (requestOf c jsonData)) as [resp|e]; simpl in H.
  - apply interpretResponse_Do in H. by apply eventsUpToDo_Do in H.
  - by apply eventsUpToDo_Do in H.
Qed.

(** Conversely, once every earlier step has gone through, the request is
    handed to [httpClient.Do]. *)
Lemma send_reaches_Do w c result payload jsonData :
  APIEndpoint (Elchi (config c)) ≠ "" →
  GetDiscoveryPayload c result = inl payload →
  json_Marshal w payload = inl jsonData →
  http_NewRequest w "POST" (APIEndpoint (Elchi (config c))) = None →
  sendDiscoveryResult w c result true =
    match http_Do w (requestOf c jsonData) with
    | inr err => {| oc_err := Some ("failed to send request: " +:+ err);
                    oc_client := c;
                    oc_events := eventsUpToDo c jsonData |}
    | inl resp => interpretResponse c (eventsUpToDo c jsonData) resp
    end.
Proof.
  intros He Hp Hm Hn. unfold sendDiscoveryResult.
  rewrite bool_decide_eq_false_2 by done. simpl.
  by rewrite Hp, Hm, Hn.
Qed.

Lemma send_config w c result shouldSend :
  config (oc_client (sendDiscoveryResult w c result shouldSend)) = config c.
Proof.
  unfold sendDiscoveryResult.
  repeat case_match; simpl; try done. apply interpretResponse_config.
Qed.

(** The client after a send: the flag is stored exactly on a confirmed
    success, and nothing else about the client changes. *)
Lemma send_client w c result shouldSend :
  let o := sendDiscoveryResult w c result shouldSend in
  (oc_client o = initialCompleted_Store true c ∧ ConfirmedSuccess w o)
  ∨ (oc_client o = c ∧ ¬ ConfirmedSuccess w o).
Proof.
  intros o.
  destruct (send_cases w c result shouldSend)
    as [[Hc Hno]|(payload & jsonData & He & Hs & Hp & Hm & Hn & Heq)];
    fold o in Hc, Hno || fold o in Heq.
  { right. split; [done|]. intros (req & _ & _ & Hin & _). by destruct (Hno req). }
  destruct (http_Do w (requestOf c jsonData)) as [resp|e] eqn:Hdo.
  - destruct (interpretResponse_client c (eventsUpToDo c jsonData) resp)
      as [(Hc & Hst & a & Hd & Hsu)|[Hc Hno]]; rewrite <- Heq in Hc.
    + left. split; [done|].
      exists (requestOf c jsonData), resp, a. split_and!; try done; try lia.
      rewrite Heq. apply interpretResponse_Do. by apply eventsUpToDo_Do.
    + right. split; [done|].
      intros (req' & resp' & a' & Hin & Hdo' & Hst & Hd & Hsu).
      rewrite Heq in Hin.
      apply interpretResponse_Do, eventsUpToDo_Do in Hin. subst req'.
      rewrite Hdo in Hdo'. injection Hdo' as <-.
      apply Hno. split; [done|]. by exists a'.
  - right. rewrite Heq. split; [done|].
    intros (req' & resp' & a' & Hin & Hdo' & _). simpl in Hin.
    apply eventsUpToDo_Do in Hin. subst req'. congruence.
Qed.

End Send.

(** ** Tenant derivation *)

(** C2. For every credential that contains the separator "--", tenant
    derivation splits at the first occurrence only: with [p] the text
    before the first "--" and [q] everything after it, later separators
    included, the split is [[p; q]] and the tenant is [q], verbatim. *)
Theorem extractProjectFromToken_first_split (token : string) :
  Contains token "--" →
  (∃ p q, token = p +:+ "--" +:+ q ∧ first_at token "--" p)
  ∧ (∀ p q, token = p +:+ "--" +:+ q → first_at token "--" p →
       strings.SplitN token "--" 2 = [p; q]
       ∧ extractProjectFromToken token = q).
Proof.
  intros (p0 & q0 & H0). split.
  - destruct (first_occurrence_dec token "--") as [Hno|?]; [|done].
    by destruct (Hno p0 q0).
  - intros p q Htok Hfirst.
    assert (strings.SplitN token "--" 2 = [p; q]) as Hsplit
      by (by apply SplitN_2_found).
    split; [done|]. unfold extractProjectFromToken. by rewrite Hsplit.
Qed.

(** The credential "uuid--project--extra" yields "project--extra", not
    "extra" and not "project". *)
Lemma extract_uuid_project_extra :
  Contains "uuid--project--extra" "--"
  ∧ extractProjectFromToken "uuid--project--extra" = "project--extra"
  ∧ extractProjectFromToken "uuid--project--extra" ≠ "extra"
  ∧ extractProjectFromToken "uuid--project--extra" ≠ "project".
Proof.
  assert (Contains "uuid--project--extra" "--") as Hc
    by (by exists "uuid", "project--extra").
  split; [exact Hc|].
  destruct (extractProjectFromToken_first_split _ Hc) as [_ H].
  destruct (H "uuid" "project--extra") as [_ ->]; [done| |done].
  intros p' q' Heq.
  destruct p' as [|? [|? [|? [|? ?]]]]; simpl; try lia; discriminate Heq.
Defined.

(** C3, as the claim words it, fails: the credential "--project" does not
    split into two non-empty parts (the first part is empty), yet a send
    with an endpoint configured derives the tenant "project", transmits
    the request and returns no error. *)
Lemma empty_first_part_is_not_rejected :
  let c := NewClient (sample_config "https://api.example.com" "--project") in
  let o := SendDiscoveryResult (world_answering (inl response_success)) c empty_report in
  strings.SplitN "--project" "--" 2 = [""; "project"]
  ∧ ¬ (∃ a b, strings.SplitN "--project" "--" 2 = [a; b] ∧ a ≠ "" ∧ b ≠ "")
  ∧ oc_err o = None
  ∧ ∃ req, HTTPDo req ∈ oc_events o.
Proof.
  intros c o. split; [done|]. split.
  - intros (a & b & [= <- <-] & Ha & _). done.
  - split; [done|]. exists (requestOf c "{}").
    assert (o = interpretResponse c (eventsUpToDo c "{}") response_success)
      as -> by done.
    by apply interpretResponse_Do, eventsUpToDo_Do.
Qed.

(** C3, amended. With an endpoint configured, a credential whose split on
    the first "--" gives no second part (no separator) or an empty second
    part makes the send fail with the "invalid token format" error before
    anything is sent, the client unchanged; whenever the second part is
    non-empty, so in particular when both parts are, tenant derivation
    succeeds with that part. The first part is not looked at. *)
Theorem token_without_tenant_aborts_send (w : World) (c : Client)
    (result : DiscoveryResult) :
  APIEndpoint (Elchi (config c)) ≠ "" →
  let token := Token (Elchi (config c)) in
  let parts := strings.SplitN token "--" 2 in
  (parts = [token] ∨ ∃ a b, parts = [a; b])
  ∧ (¬ Contains token "--" → parts = [token])
  ∧ ((parts = [token] ∨ ∃ a, parts = [a; ""]) →
       SendDiscoveryResult w c result =
         {| oc_err := Some "invalid token format: expected 'uuid--project' format";
            oc_client := c; oc_events := [] |})
  ∧ (∀ a b, parts = [a; b] → b ≠ "" →
       GetDiscoveryPayload c result = inl {| Project := b; Data := result |}).
Proof.
  intros Hend token parts.
  assert (¬ Contains token "--" → parts = [token]) as Habsent.
  { intros Hno. apply SplitN_2_absent. intros p q Heq. apply Hno. by exists p, q. }
  split_and!.
  - destruct (first_occurrence_dec token "--") as [Hno|(p & q & Hs & Hf)].
    + left. apply Habsent. intros (p & q & Heq). by destruct (Hno p q).
    + right. exists p, q. by apply SplitN_2_found.
  - exact Habsent.
  - intros Hparts.
    assert (extractProjectFromToken token = "") as Hex.
    { unfold extractProjectFromToken. fold parts.
      destruct Hparts as [->|[a ->]]; done. }
    unfold SendDiscoveryResult, sendDiscoveryResult.
    rewrite bool_decide_eq_false_2 by done. simpl.
    unfold GetDiscoveryPayload. fold token. by rewrite Hex.
  - intros a b Hparts Hb. unfold GetDiscoveryPayload, extractProjectFromToken.
    fold token parts. rewrite Hparts. simpl.
    by destruct (decide (b = "")).
Qed.

Lemma token_without_separator_aborts_send :
  let c := NewClient (sample_config "https://api.example.com" "invalid-token-format") in
  SendDiscoveryResult (world_answering (inl response_success)) c empty_report =
    {| oc_err := Some "invalid token format: expected 'uuid--project' format";
       oc_client := c; oc_events := [] |}.
Proof.
  intros c.
  assert (APIEndpoint (Elchi (config c)) ≠ "") as Hend by done.
  apply (token_without_tenant_aborts_send
           (world_answering (inl response_success)) c empty_report Hend).
  by left.
Defined.

(** ** The short-circuit *)

(** C4. With no endpoint configured, a send of any report with any
    credential in any environment returns success at once: its whole
    outcome is the one debug line, so no request is made, the client and
    its lifecycle flag are untouched, and neither the credential nor the
    encoder nor the transport has any bearing on the outcome. *)
Theorem no_endpoint_send_is_noop (w : World) (c : Client)
    (result : DiscoveryResult) (shouldSend : bool) :
  APIEndpoint (Elchi (config c)) = "" →
  let o := sendDiscoveryResult w c result shouldSend in
  o = {| oc_err := None; oc_client := c;
         oc_events := [Log LDebug "No API endpoint configured, skipping send"] |}
  ∧ oc_err o = None
  ∧ initialCompleted (oc_client o) = initialCompleted c
  ∧ (∀ req, HTTPDo req ∉ oc_events o)
  ∧ (∀ w' result', sendDiscoveryResult w' c result' shouldSend = o).
Proof.
  intros Hend o.
  assert (∀ w' result', sendDiscoveryResult w' c result' shouldSend =
            {| oc_err := None; oc_client := c;
               oc_events := [Log LDebug "No API endpoint configured, skipping send"] |})
    as Heq.
  { intros w' result'. unfold sendDiscoveryResult.
    by rewrite bool_decide_eq_true_2. }
  subst o. rewrite !Heq. simpl. split_and!; try done.
  intros req H. by event_in H.
Qed.

Lemma no_endpoint_malformed_token_is_noop :
  let c := NewClient (sample_config "" "invalid-token-format") in
  let o := sendDiscoveryResult world_broken c empty_report true in
  oc_err o = None ∧ initialCompleted (oc_client o) = false
  ∧ ∀ req, HTTPDo req ∉ oc_events o.
Proof.
  intros c o.
  assert (APIEndpoint (Elchi (config c)) = "") as Hend by done.
  destruct (no_endpoint_send_is_noop world_broken c empty_report true Hend)
    as (_ & Herr & Hflag & Hnone & _).
  split_and!; done.
Defined.

(** ** Reading the response *)

Lemma Contains_head (s q : string) : Contains (s +:+ q) s.
Proof. by exists "", q. Qed.

Lemma Contains_self (s : string) : Contains s s.
Proof.
  exists "", "". change (s = s +:+ ""). induction s as [|a s IH]; [done|].
  change (String a s = String a (s +:+ "")). by rewrite <- IH.
Qed.

Lemma Contains_app_r (p t s : string) : Contains t s → Contains (p +:+ t) s.
Proof.
  intros (p' & q' & ->). exists (p +:+ p'), q'. by rewrite app_assoc_s.
Qed.

Create HintDb contains.

#[local] Hint Resolve Contains_head Contains_self Contains_app_r : contains.

(** C5. Whenever a send has handed its request to the transport and got a
    response back: a status outside 200-299 makes the send return an error
    whose message carries the status code, and the decoded error text as
    well when the body decodes with a non-empty error field (otherwise the
    status code only); a status within 200-299 makes it return success
    when the body does not decode, an error carrying the remote error text
    when the body decodes with [success = false], and success when it
    decodes with [success = true]. *)
Theorem send_interprets_response (w : World) (c : Client)
    (result : DiscoveryResult) (req : Request) (resp : Response) :
  let o := SendDiscoveryResult w c result in
  HTTPDo req ∈ oc_events o →
  http_Do w req = inl resp →
  (¬ (200 ≤ StatusCode resp < 300) →
     ∃ msg, oc_err o = Some msg
       ∧ Contains msg (fmt_d (StatusCode resp))
       ∧ (∀ a, Decoded resp = inl a → Error a ≠ "" →
            msg = "API error (HTTP " +:+ fmt_d (StatusCode resp) +:+ "): " +:+ Error a
            ∧ Contains msg (Error a))
       ∧ ((∀ a, Decoded resp = inl a → Error a = "") →
            msg = "API returned non-success status: " +:+ fmt_d (StatusCode resp)))
  ∧ (200 ≤ StatusCode resp < 300 →
       (∀ e, Decoded resp = inr e → oc_err o = None)
       ∧ (∀ a, Decoded resp = inl a → Success a = false →
            oc_err o = Some ("API processing failed: " +:+ Error a)
            ∧ Contains ("API processing failed: " +:+ Error a) (Error a))
       ∧ (∀ a, Decoded resp = inl a → Success a = true → oc_err o = None)).
Proof.
  intros o Hin Hdo.
  destruct (send_Do_inv _ _ _ _ _ Hin)
    as (payload & jsonData & _ & _ & _ & _ & _ & _ & Heq).
  fold (SendDiscoveryResult w c result) in Heq. fold o in Heq.
  rewrite Hdo in Heq. rewrite Heq. clear Heq Hin o.
  unfold interpretResponse. split.
  - intros Hout.
    assert (bool_decide (StatusCode resp < 200)
            || bool_decide (StatusCode resp >= 300) = true) as ->.
    { apply orb_true_iff. rewrite !bool_decide_eq_true. lia. }
    destruct (Decoded resp) as [a|e].
    + destruct (decide (Error a ≠ "")) as [Hne|He]; simpl.
      * eexists. split; [done|]. split; [auto with contains|]. split.
        -- intros a' [= <-] _. split; [done|]. auto with contains.
        -- intros Hall. destruct Hne. by apply Hall.
      * eexists. split; [done|]. split; [auto with contains|]. split.
        -- intros a' [= <-] Hne. done.
        -- done.
    + simpl. eexists. split; [done|]. split; [auto with contains|]. split.
      * intros a' [=].
      * done.
  - intros Hin.
    assert (bool_decide (StatusCode resp < 200)
            || bool_decide (StatusCode resp >= 300) = false) as ->.
    { apply orb_false_iff. rewrite !bool_decide_eq_false. lia. }
    destruct (Decoded resp) as [a|e].
    + split_and!.
      * intros e' [=].
      * intros a' [= <-] ->. simpl. split; [done|]. auto with contains.
      * intros a' [= <-] ->. done.
    + split_and!; [done | intros a' [=] | intros a' [=]].
Qed.

Lemma send_interprets_bad_request :
  let w := world_answering (inl response_bad_request) in
  let c := NewClient (sample_config "https://api.example.com" "uuid--project") in
  oc_err (SendDiscoveryResult w c empty_report)
    = Some "API error (HTTP 400): Invalid cluster configuration".
Proof.
  intros w c.
  assert (HTTPDo (requestOf c "{}") ∈ oc_events (SendDiscoveryResult w c empty_report))
    as Hin.
  { assert (SendDiscoveryResult w c empty_report
            = interpretResponse c (eventsUpToDo c "{}") response_bad_request)
      as -> by done.
    by apply interpretResponse_Do, eventsUpToDo_Do. }
  assert (http_Do w (requestOf c "{}") = inl response_bad_request) as Hdo by done.
  destruct (send_interprets_response w c empty_report _ _ Hin Hdo) as [Hout _].
  destruct Hout as (msg & -> & _ & Hmsg & _); [simpl; lia|].
  destruct (Hmsg _ eq_refl) as [-> _]; done.
Defined.

(** ** The credential on the wire *)

Lemma setHeaders_Authorization (c : Client) (req : Request) :
  Token (Elchi (config c)) ≠ "" →
  Header (setHeaders c req) !! "Authorization"
    = Some ("Bearer " +:+ Token (Elchi (config c))).
Proof.
  intros Htok. unfold setHeaders.
  destruct (decide (Token (Elchi (config c)) ≠ "")); [|done].
  simpl. apply lookup_insert_eq.
Qed.

Lemma setHeaders_initial (c : Client) (req : Request) :
  Header (setHeaders c req) !! "initial"
    = Some (if initialCompleted c then "false" else "true").
Proof.
  unfold setHeaders.
  destruct (decide (Token (Elchi (config c)) ≠ "")), (initialCompleted c); simpl;
    by simplify_map_eq.
Qed.

Lemma extract_empty_token : extractProjectFromToken "" = "".
Proof. reflexivity. Qed.

(** C10. Every request that a send hands to the transport carries the
    header [Authorization: Bearer <credential>] with the configured
    credential, which is then non-empty: with an empty credential the
    tenant comes out empty, so a send with an endpoint stops at the
    "invalid token format" error and no send ever builds a request. *)
Theorem transmitted_request_carries_credential (w : World) (c : Client)
    (result : DiscoveryResult) (shouldSend : bool) :
  let o := sendDiscoveryResult w c result shouldSend in
  let token := Token (Elchi (config c)) in
  (∀ req, HTTPDo req ∈ oc_events o →
     token ≠ "" ∧ Header req !! "Authorization" = Some ("Bearer " +:+ token))
  ∧ (token = "" →
       extractProjectFromToken token = ""
       ∧ (∀ req, HTTPDo req ∉ oc_events o)
       ∧ (APIEndpoint (Elchi (config c)) ≠ "" → shouldSend = true →
            o = {| oc_err := Some "invalid token format: expected 'uuid--project' format";
                   oc_client := c; oc_events := [] |})).
Proof.
  intros o token.
  assert (∀ req, HTTPDo req ∈ oc_events o → token ≠ "") as Hnonempty.
  { intros req Hin.
    destruct (send_Do_inv _ _ _ _ _ Hin)
      as (payload & jsonData & _ & _ & Hp & _).
    intros Hempty. unfold GetDiscoveryPayload in Hp. fold token in Hp.
    rewrite Hempty, extract_empty_token in Hp. done. }
  split.
  - intros req Hin. split; [by eapply Hnonempty|].
    destruct (send_Do_inv _ _ _ _ _ Hin)
      as (payload & jsonData & _ & _ & _ & _ & _ & -> & _).
    apply setHeaders_Authorization. by eapply Hnonempty.
  - intros Hempty. split; [by rewrite Hempty|]. split.
    + intros req Hin. by apply (Hnonempty req).
    + intros Hend ->. subst o. unfold sendDiscoveryResult.
      rewrite bool_decide_eq_false_2 by done. simpl.
      unfold GetDiscoveryPayload. fold token.
      by rewrite Hempty, extract_empty_token.
Qed.

Lemma request_carries_sample_credential :
  let c := NewClient (sample_config "https://api.example.com" "uuid--project") in
  Header (requestOf c "{}") !! "Authorization" = Some "Bearer uuid--project".
Proof.
  intros c.
  destruct (transmitted_request_carries_credential
              (world_answering (inl response_success)) c empty_report true)
    as [H _].
  destruct (H (requestOf c "{}")) as [_ Hhdr]; [|exact Hhdr].
  change (HTTPDo (requestOf c "{}")
            ∈ oc_events (interpretResponse c (eventsUpToDo c "{}") response_success)).
  by apply interpretResponse_Do, eventsUpToDo_Do.
Defined.

(** ** The lifecycle flag *)

Lemma initialCompleted_Store_true (c : Client) :
  initialCompleted (initialCompleted_Store true c) = true.
Proof. done. Qed.

(** One send: the header it puts on its request and the flag it leaves. *)
Lemma send_flag_step (w : World) (c : Client) (result : DiscoveryResult) :
  let o := SendDiscoveryResult w c result in
  (∀ req, HTTPDo req ∈ oc_events o →
     Header req !! "initial" = Some (if initialCompleted c then "false" else "true"))
  ∧ (initialCompleted (oc_client o) = true
     ↔ initialCompleted c = true ∨ ConfirmedSuccess w o).
Proof.
  intros o. split.
  - intros req Hin.
    destruct (send_Do_inv _ _ _ _ _ Hin)
      as (payload & jsonData & _ & _ & _ & _ & _ & -> & _).
    apply setHeaders_initial.
  - destruct (send_client w c result true) as [[Hc Hok]|[Hc Hno]];
      fold (SendDiscoveryResult w c result) in *; fold o in Hc; rewrite Hc.
    + rewrite initialCompleted_Store_true. split; [by right | done].
    + split; [by left | by intros [?|?]].
Qed.

(** The sends of a run, by position: the client each one starts from is
    the client the previous one left, and its flag is set exactly if the
    run started with the flag set or an earlier send was confirmed. *)
Lemma run_lookup (c0 : Client) (ticks : list (World * DiscoveryResult))
    (i : nat) (c : Client) (w : World) (o : Outcome) :
  run c0 ticks !! i = Some (c, w, o) →
  (∃ result, ticks !! i = Some (w, result) ∧ o = SendDiscoveryResult w c result)
  ∧ (initialCompleted c = true
     ↔ initialCompleted c0 = true
       ∨ ∃ j c' w' o', (j < i)%nat ∧ run c0 ticks !! j = Some (c', w', o')
                       ∧ ConfirmedSuccess w' o').
Proof.
  revert c0 i. induction ticks as [|[w0 r0] ticks IH]; intros c0 i Hi; [done|].
  destruct i as [|i]; simpl in Hi.
  - injection Hi as <- <- <-. split; [by exists r0|].
    split; [by left|]. intros [?|(j & ? & ? & ? & ? & _)]; [done | lia].
  - destruct (IH _ _ Hi) as [Hres Hflag]. split; [done|].
    rewrite Hflag.
    destruct (send_flag_step w0 c0 r0) as [_ ->]. split.
    + intros [[?|Hok]|(j & c' & w' & o' & Hj & Hlook & Hok)].
      * by left.
      * right. exists 0%nat, c0, w0, (SendDiscoveryResult w0 c0 r0).
        split_and!; [lia | done | done].
      * right. exists (S j), c', w', o'. split_and!; [lia | done | done].
    + intros [?|(j & c' & w' & o' & Hj & Hlook & Hok)]; [by left; left|].
      destruct j as [|j]; simpl in Hlook.
      * injection Hlook as <- <- <-. by left; right.
      * right. exists j, c', w', o'. split_and!; [lia | done | done].
Qed.

(** C1. The lifecycle flag of a client is a one-way switch. A new client
    has it unset. For the sends of any run of such a client, in any
    environments: every request a send transmits has the header [initial]
    set to "true" when the flag is unset at that send and to "false" when
    it is set; the send leaves the flag set exactly if it was set already
    or this send was confirmed (a success-range response whose body decodes
    to [success = true]), so no send, failed or with an unreadable body,
    unsets it; and the flag is set at a send exactly if an earlier send of
    the run was confirmed. *)
Theorem lifecycle_flag_is_one_way (cfg : Config)
    (ticks : list (World * DiscoveryResult)) :
  initialCompleted (NewClient cfg) = false
  ∧ ∀ i c w o, run (NewClient cfg) ticks !! i = Some (c, w, o) →
      (∃ result, ticks !! i = Some (w, result) ∧ o = SendDiscoveryResult w c result)
      ∧ (∀ req, HTTPDo req ∈ oc_events o →
           Header req !! "initial"
             = Some (if initialCompleted c then "false" else "true"))
      ∧ (initialCompleted (oc_client o) = true
         ↔ initialCompleted c = true ∨ ConfirmedSuccess w o)
      ∧ (initialCompleted c = true → initialCompleted (oc_client o) = true)
      ∧ (initialCompleted c = true
         ↔ ∃ j c' w' o', (j < i)%nat
             ∧ run (NewClient cfg) ticks !! j = Some (c', w', o')
             ∧ ConfirmedSuccess w' o').
Proof.
  split; [done|]. intros i c w o Hi.
  destruct (run_lookup _ _ _ _ _ _ Hi) as [(result & Htick & ->) Hflag].
  destruct (send_flag_step w c result) as [Hhdr Hstep].
  split_and!.
  - by exists result.
  - exact Hhdr.
  - exact Hstep.
  - intros Hset. apply Hstep. by left.
  - rewrite Hflag. split; [intros [?|?]; done | by right].
Qed.

(** Three ticks: an unreadable 200, a confirmed success, a refused
    connection. The flag before and after each send is unset/unset,
    unset/set, set/set, and the third request carries [initial: false]. *)
Lemma lifecycle_three_ticks :
  let cfg := sample_config "https://api.example.com" "uuid--project" in
  let ticks := [(world_answering (inl response_unreadable), empty_report);
                (world_answering (inl response_success), empty_report);
                (world_answering (inr "connection refused"), empty_report)] in
  let c3 := initialCompleted_Store true (NewClient cfg) in
  (λ '(c, _, o), (initialCompleted c, initialCompleted (oc_client o)))
    <$> run (NewClient cfg) ticks
  = [(false, false); (false, true); (true, true)]
  ∧ Header (requestOf c3 "{}") !! "initial" = Some "false".
Proof.
  intros cfg ticks c3. split; [done|].
  destruct (lifecycle_flag_is_one_way cfg ticks) as [_ H].
  destruct (H 2%nat c3 (world_answering (inr "connection refused"))
              (SendDiscoveryResult (world_answering (inr "connection refused"))
                                   c3 empty_report) eq_refl)
    as (_ & Hhdr & _).
  apply (Hhdr (requestOf c3 "{}")).
  change (HTTPDo (requestOf c3 "{}") ∈ eventsUpToDo c3 "{}").
  by apply eventsUpToDo_Do.
Defined.

(** ** The node classifier *)

Lemma taint_loop_nil (taints : list Taint) :
  taint_loop taints [] =
    if existsb control_plane_taint taints then ["control-plane"] else [].
Proof.
  induction taints as [|taint rest IH]; simpl; [done|].
  unfold control_plane_taint at 1.
  destruct (bool_decide _ || bool_decide _); simpl; [done | exact IH].
Qed.

Lemma getNodeRoles_by_rule (node : Node) : getNodeRoles node = roles_by_rule node.
Proof.
  unfold getNodeRoles, roles_by_rule.
  destruct (label_ok node "node-role.kubernetes.io/control-plane"),
           (label_ok node "node-role.kubernetes.io/master"),
           (label_ok node "node-role.kubernetes.io/worker"),
           (label_ok node "node-role.kubernetes.io/etcd"); simpl; try done.
  rewrite taint_loop_nil.
  by destruct (existsb control_plane_taint (Taints node)).
Qed.

(** Membership in a list of role names that is written out. *)
Ltac role_in :=
  rewrite ?elem_of_cons, ?elem_of_nil; intuition (try discriminate; try done).

(** C6. For every node the roles are those of the rule, in its order:
    "control-plane" for a control-plane role label; "master" for a master
    role label only when there is no control-plane label, so never both;
    "worker" and "etcd" appended for their labels; with no role label,
    "control-plane" for a taint keyed control-plane or master; and with
    nothing at all, exactly ["worker"]. The list is never empty. *)
Theorem getNodeRoles_rule (node : Node) :
  let roles := getNodeRoles node in
  let cp := label_ok node "node-role.kubernetes.io/control-plane" in
  let ma := label_ok node "node-role.kubernetes.io/master" in
  let wk := label_ok node "node-role.kubernetes.io/worker" in
  let et := label_ok node "node-role.kubernetes.io/etcd" in
  let tainted := existsb control_plane_taint (Taints node) in
  roles = roles_by_rule node
  ∧ roles ≠ []
  ∧ ¬ ("control-plane" ∈ roles ∧ "master" ∈ roles)
  ∧ (cp = true → head roles = Some "control-plane")
  ∧ ("master" ∈ roles ↔ ma = true ∧ cp = false)
  ∧ ("etcd" ∈ roles ↔ et = true)
  ∧ (cp || ma || wk || et = true → ("worker" ∈ roles ↔ wk = true))
  ∧ (cp || ma || wk || et = false →
       roles = if tainted then ["control-plane"] else ["worker"]).
Proof.
  intros roles cp ma wk et tainted.
  subst roles. rewrite getNodeRoles_by_rule. unfold roles_by_rule.
  fold cp ma wk et tainted.
  destruct cp, ma, wk, et, tainted; simpl; split_and!; try done; role_in.
Qed.

(** ** Readiness *)

Lemma status_loop_first (pre post : list NodeCondition) (c : NodeCondition) :
  (∀ x, x ∈ pre → cond_Type x ≠ NodeReady) →
  cond_Type c = NodeReady →
  status_loop (pre ++ c :: post) =
    if decide (cond_Status c = ConditionTrue) then "Ready" else "NotReady".
Proof.
  intros Hpre Hc. induction pre as [|x pre IH]; simpl.
  - by destruct (decide (cond_Type c = NodeReady)).
  - destruct (decide (cond_Type x = NodeReady)) as [Hx|_].
    + destruct (Hpre x); [by left | done].
    + apply IH. intros y Hy. apply Hpre. by right.
Qed.

Lemma status_loop_absent (conditions : list NodeCondition) :
  (∀ x, x ∈ conditions → cond_Type x ≠ NodeReady) →
  status_loop conditions = "Unknown".
Proof.
  induction conditions as [|x rest IH]; intros Hall; simpl; [done|].
  destruct (decide (cond_Type x = NodeReady)) as [Hx|_].
  - destruct (Hall x); [by left | done].
  - apply IH. intros y Hy. apply Hall. by right.
Qed.

(** Conditions of other types can be dropped without changing the status. *)
Lemma status_loop_filter (conditions : list NodeCondition) :
  status_loop conditions =
    status_loop (filter (λ c, cond_Type c = NodeReady) conditions).
Proof.
  induction conditions as [|x rest IH]; simpl; [done|].
  destruct (decide (cond_Type x = NodeReady)) as [Hx|Hx].
  - rewrite filter_cons_True by done. simpl.
    by destruct (decide (cond_Type x = NodeReady)).
  - by rewrite filter_cons_False.
Qed.

(** A list either has no "Ready" condition or has a first one. *)
Lemma first_ready_dec (conditions : list NodeCondition) :
  (∀ x, x ∈ conditions → cond_Type x ≠ NodeReady)
  ∨ ∃ pre c post, conditions = pre ++ c :: post
      ∧ (∀ x, x ∈ pre → cond_Type x ≠ NodeReady) ∧ cond_Type c = NodeReady.
Proof.
  induction conditions as [|x rest IH].
  - left. intros x Hx. by apply elem_of_nil in Hx.
  - destruct (decide (cond_Type x = NodeReady)) as [Hx|Hx].
    + right. exists [], x, rest. split_and!; [done | | done].
      intros y Hy. by apply elem_of_nil in Hy.
    + destruct IH as [Hall|(pre & c & post & -> & Hpre & Hc)].
      * left. intros y [->|Hy]%elem_of_cons; [done | by apply Hall].
      * right. exists (x :: pre), c, post. split_and!; [done | | done].
        intros y [->|Hy]%elem_of_cons; [done | by apply Hpre].
Qed.

(** C7. Status derivation is total and reads the "Ready" condition only.
    For every node: the status is one of "Ready", "NotReady", "Unknown";
    where the list has a "Ready" condition, the first one decides, "Ready"
    for the value "True" and "NotReady" for any other value, so that a
    "Ready" condition present with a value that all "Ready" conditions of
    the node share gives "Ready" for "True" and "NotReady" otherwise;
    where it has none, the empty list included, the status is "Unknown";
    conditions of other types do not change the result. *)
Theorem getNodeStatus_total (node : Node) :
  getNodeStatus node ∈ ["Ready"; "NotReady"; "Unknown"]
  ∧ (∀ pre c post,
       Conditions node = pre ++ c :: post →
       (∀ x, x ∈ pre → cond_Type x ≠ "Ready") →
       cond_Type c = "Ready" →
       getNodeStatus node =
         if decide (cond_Status c = "True") then "Ready" else "NotReady")
  ∧ (∀ c, c ∈ Conditions node → cond_Type c = "Ready" →
       (∀ c', c' ∈ Conditions node → cond_Type c' = "Ready" →
              cond_Status c' = cond_Status c) →
       getNodeStatus node =
         if decide (cond_Status c = "True") then "Ready" else "NotReady")
  ∧ ((∀ x, x ∈ Conditions node → cond_Type x ≠ "Ready") →
       getNodeStatus node = "Unknown")
  ∧ (Conditions node = [] → getNodeStatus node = "Unknown")
  ∧ getNodeStatus node = status_loop (ready_conditions node).
Proof.
  unfold getNodeStatus, ready_conditions.
  assert (∀ pre c post,
            Conditions node = pre ++ c :: post →
            (∀ x, x ∈ pre → cond_Type x ≠ "Ready") →
            cond_Type c = "Ready" →
            status_loop (Conditions node) =
              if decide (cond_Status c = "True") then "Ready" else "NotReady")
    as Hfirst.
  { intros pre c post -> Hpre Hc. by apply status_loop_first. }
  split_and!.
  - destruct (first_ready_dec (Conditions node))
      as [Hall|(pre & c & post & Heq & Hpre & Hc)].
    + rewrite status_loop_absent by done. role_in.
    + rewrite (Hfirst _ _ _ Heq Hpre Hc).
      destruct (decide (cond_Status c = "True")); role_in.
  - exact Hfirst.
  - intros c Hin Hc Hagree.
    destruct (first_ready_dec (Conditions node))
      as [Hall|(pre & c1 & post & Heq & Hpre & Hc1)].
    + by destruct (Hall c Hin).
    + rewrite (Hfirst _ _ _ Heq Hpre Hc1).
      assert (cond_Status c1 = cond_Status c) as ->; [|done].
      apply Hagree; [|done]. rewrite Heq, elem_of_app, elem_of_cons. auto.
  - apply status_loop_absent.
  - intros ->. done.
  - apply status_loop_filter.
Qed.

Lemma roles_of_unlabelled_node :
  getNodeRoles (sample_node "node2" ∅ [] []) = ["worker"].
Proof.
  destruct (getNodeRoles_rule (sample_node "node2" ∅ [] []))
    as (_ & _ & _ & _ & _ & _ & _ & Hdefault).
  by apply Hdefault.
Defined.

Lemma status_of_ready_node :
  getNodeStatus
    (sample_node "node1" ∅ []
       [{| cond_Type := "MemoryPressure"; cond_Status := "False" |};
        {| cond_Type := "Ready"; cond_Status := "True" |}]) = "Ready".
Proof.
  destruct (getNodeStatus_total
              (sample_node "node1" ∅ []
                 [{| cond_Type := "MemoryPressure"; cond_Status := "False" |};
                  {| cond_Type := "Ready"; cond_Status := "True" |}]))
    as (_ & Hfirst & _).
  apply (Hfirst [{| cond_Type := "MemoryPressure"; cond_Status := "False" |}]
                {| cond_Type := "Ready"; cond_Status := "True" |} []);
    [done | | done].
  intros x Hx. apply list_elem_of_singleton in Hx. by subst x.
Defined.

(** ** The collector *)

(** The loop of [DiscoverNodes] appends one record per node and touches
    no other field. *)
Lemma collect_loop (result : DiscoveryResult) (items : list Node) :
  foldl (λ result node,
           {| Timestamp := Timestamp result;
              dr_ClusterInfo := dr_ClusterInfo result;
              NodeCount := NodeCount result;
              Nodes := Nodes result ++ [nodeInfoOf node];
              Duration := Duration result |})
        result items
  = {| Timestamp := Timestamp result;
       dr_ClusterInfo := dr_ClusterInfo result;
       NodeCount := NodeCount result;
       Nodes := Nodes result ++ map nodeInfoOf items;
       Duration := Duration result |}.
Proof.
  revert result. induction items as [|node items IH]; intros result; simpl.
  - rewrite app_nil_r. by destruct result.
  - rewrite IH. simpl. by rewrite <- app_assoc.
Qed.

Lemma DiscoverNodes_listed (s : Service) (items : list Node) :
  Nodes_List (client s) = inl items →
  DiscoverNodes s =
    inl {| Timestamp := time_Now (client s) 1;
           dr_ClusterInfo := getClusterInfo s;
           NodeCount := Z.of_nat (length items);
           Nodes := map nodeInfoOf items;
           Duration := Duration_String (client s)
                         (time_Now (client s) 2 - time_Now (client s) 0) |}.
Proof.
  intros Hlist. unfold DiscoverNodes. rewrite Hlist. by rewrite collect_loop.
Qed.

(** C8. For every node list the cluster API returns, the empty list
    included, collection succeeds, and in its report [NodeCount] is the
    length of [Nodes], which has one record per listed node, in list
    order, built from that node; for the empty list the count is 0 and
    [Nodes] is empty. *)
Theorem DiscoverNodes_count (s : Service) (items : list Node) :
  Nodes_List (client s) = inl items →
  ∃ report, DiscoverNodes s = inl report
    ∧ NodeCount report = Z.of_nat (length (Nodes report))
    ∧ length (Nodes report) = length items
    ∧ Nodes report = map nodeInfoOf items
    ∧ (∀ i node, items !! i = Some node →
         ∃ record, Nodes report !! i = Some record
           ∧ ni_Name record = Name node
           ∧ ni_Roles record = getNodeRoles node
           ∧ ni_Status record = getNodeStatus node
           ∧ ni_Version record = KubeletVersion node)
    ∧ (items = [] → NodeCount report = 0 ∧ Nodes report = []).
Proof.
  intros Hlist. eexists. split; [by apply DiscoverNodes_listed|]. simpl.
  split_and!.
  - by rewrite length_map.
  - by rewrite length_map.
  - done.
  - intros i node Hi. exists (nodeInfoOf node). split; [|done].
    by rewrite list_lookup_fmap, Hi.
  - by intros ->.
Qed.

Lemma DiscoverNodes_empty_cluster :
  DiscoverNodes (NewService (sample_cluster (Some "v1.28.2", None) (inl []))
                            "test-cluster")
  = inl {| Timestamp := 1001;
           dr_ClusterInfo := {| ci_Name := "test-cluster"; ci_Version := "v1.28.2" |};
           NodeCount := 0; Nodes := []; Duration := "2ns" |}.
Proof.
  destruct (DiscoverNodes_count
              (NewService (sample_cluster (Some "v1.28.2", None) (inl []))
                          "test-cluster") [] eq_refl)
    as (report & Heq & _ & _ & _ & _ & Hempty).
  destruct (Hempty eq_refl) as [Hcount Hnodes].
  rewrite Heq. vm_compute in Heq. by injection Heq as <-.
Defined.

(** C9. When the server-version query fails, the cluster info is the
    configured name with the version "unknown", and collection is decided
    by the node listing alone: it succeeds whenever the listing does, with
    that cluster info in the report, and an error it returns is the
    listing's. *)
Theorem version_failure_is_not_fatal (s : Service) (version : option string)
    (err : error) :
  ServerVersion (client s) = (version, Some err) →
  getClusterInfo s = {| ci_Name := clusterName s; ci_Version := "unknown" |}
  ∧ (∀ items, Nodes_List (client s) = inl items →
       ∃ report, DiscoverNodes s = inl report
         ∧ ci_Version (dr_ClusterInfo report) = "unknown"
         ∧ ci_Name (dr_ClusterInfo report) = clusterName s)
  ∧ (∀ err', DiscoverNodes s = inr err' → Nodes_List (client s) = inr err').
Proof.
  intros Hver.
  assert (getClusterInfo s = {| ci_Name := clusterName s; ci_Version := "unknown" |})
    as Hinfo.
  { unfold getClusterInfo. rewrite Hver. by destruct version. }
  split_and!.
  - exact Hinfo.
  - intros items Hlist. eexists. split; [by apply DiscoverNodes_listed|].
    simpl. by rewrite Hinfo.
  - intros err' Herr. destruct (Nodes_List (client s)) as [items|e] eqn:Hlist.
    + by rewrite (DiscoverNodes_listed s items Hlist) in Herr.
    + unfold DiscoverNodes in Herr. rewrite Hlist in Herr. by injection Herr as ->.
Qed.

Lemma version_failure_on_two_nodes :
  let s := NewService
             (sample_cluster (None, Some "the server is currently unable to handle the request")
                (inl [sample_node "node1" ∅ [] []; sample_node "node2" ∅ [] []]))
             "test-cluster" in
  getClusterInfo s = {| ci_Name := "test-cluster"; ci_Version := "unknown" |}
  ∧ ∃ report, DiscoverNodes s = inl report
      ∧ ci_Version (dr_ClusterInfo report) = "unknown"
      ∧ ci_Name (dr_ClusterInfo report) = "test-cluster".
Proof.
  intros s.
  destruct (version_failure_is_not_fatal s None
              "the server is currently unable to handle the request" eq_refl)
    as (Hinfo & Hok & _).
  split; [exact Hinfo|]. by apply (Hok _ eq_refl).
Defined.

(** ** The repository's test tables, replayed *)

Example extract_valid_token :
  extractProjectFromToken
    "96688e4c-6737-4230-9591-6a3332115871--683b2148ff7e3ae67d825cfa"
  = "683b2148ff7e3ae67d825cfa".
Proof. reflexivity. Qed.

Example extract_no_separator :
  extractProjectFromToken "96688e4c-6737-4230-9591-6a3332115871" = "".
Proof. reflexivity. Qed.

Example extract_multiple_separators :
  extractProjectFromToken "uuid--project--extra" = "project--extra".
Proof. reflexivity. Qed.

Example status_not_ready :
  getNodeStatus
    (sample_node "node2" ∅ []
       [{| cond_Type := NodeReady; cond_Status := ConditionFalse |}])
  = "NotReady".
Proof. reflexivity. Qed.

Example status_without_ready_condition :
  getNodeStatus
    (sample_node "node3" ∅ []
       [{| cond_Type := "MemoryPressure"; cond_Status := ConditionFalse |}])
  = "Unknown".
Proof. reflexivity. Qed.

Example roles_control_plane_suppresses_master :
  getNodeRoles
    (sample_node "node1"
       {[ "node-role.kubernetes.io/control-plane" := "";
          "node-role.kubernetes.io/master" := "" ]} [] [])
  = ["control-plane"].
Proof. vm_compute. reflexivity. Qed.

Example roles_from_taint :
  getNodeRoles
    (sample_node "node1" ∅
       [{| Key := "node-role.kubernetes.io/master"; Value := "";
           Effect := "NoSchedule" |}] [])
  = ["control-plane"].
Proof. reflexivity. Qed.

Example send_invalid_json_response_is_success :
  oc_err (SendDiscoveryResult (world_answering (inl response_unreadable))
            (NewClient (sample_config "https://api.example.com" "uuid--project"))
            empty_report)
  = None.
Proof. reflexivity. Qed.

Example send_without_token_fails :
  oc_err (SendDiscoveryResult (world_answering (inl response_success))
            (NewClient (sample_config "https://api.example.com" ""))
            empty_report)
  = Some "invalid token format: expected 'uuid--project' format".
Proof. reflexivity. Qed.

(** * Further properties *)

(** ** Tokens *)

Lemma Index_absent (s sep : string) : strings.Index s sep = -1 → ¬ Contains s sep.
Proof.
  intros Hi (p & q & Heq).
  destruct (Index_spec s sep) as [[_ Hno]|(p' & q' & _ & Hi' & _)].
  - by destruct (Hno p q).
  - lia.
Qed.

Lemma Contains_String (a : Ascii.ascii) (s sub : string) :
  Contains s sub → Contains (String a s) sub.
Proof. intros (p & q & ->). by exists (String a p), q. Qed.

Lemma app_empty_r (s : string) : s +:+ "" = s.
Proof.
  induction s as [|a s IH]; [done|].
  change (String a (s +:+ "") = String a s). by rewrite IH.
Qed.

(** If no "--" starts inside [uuid], not even with its last byte, then in
    [uuid--project] the first "--" is the one that was put there. *)
Lemma first_at_joined (uuid project : string) :
  ¬ Contains (uuid +:+ "-") "--" →
  first_at (uuid +:+ "--" +:+ project) "--" uuid.
Proof.
  intros Hno p'. revert uuid Hno.
  induction p' as [|b p' IH]; intros uuid Hno q' Heq.
  - destruct uuid as [|a uuid]; [done|]. exfalso. apply Hno.
    change (String a (uuid +:+ "--" +:+ project) = "--" +:+ q') in Heq.
    injection Heq as -> Heq.
    destruct uuid as [|a' uuid].
    + by exists "", "".
    + change (String a' (uuid +:+ "--" +:+ project) = "-" +:+ q') in Heq.
      injection Heq as -> _. by exists "", (uuid +:+ "-").
  - destruct uuid as [|a uuid]; [simpl; lia|].
    change (String a (uuid +:+ "--" +:+ project)
            = String b (p' +:+ "--" +:+ q')) in Heq.
    injection Heq as _ Heq.
    assert (String.length uuid ≤ String.length p')%nat; [|simpl; lia].
    eapply (IH uuid); [|exact Heq].
    intros Hc. apply Hno. by apply (Contains_String a) in Hc.
Qed.

(** X1. Joining and extracting round-trip: for a first part in which no
    "--" starts (so it neither contains "--" nor ends in "-"), the tenant
    of [uuid--project] is [project], whatever [project] is. *)
Theorem extract_of_joined (uuid project : string) :
  ¬ Contains (uuid +:+ "-") "--" →
  extractProjectFromToken (uuid +:+ "--" +:+ project) = project.
Proof.
  intros Hno. unfold extractProjectFromToken.
  rewrite (SplitN_2_found _ "--" uuid project); [done | done | done |].
  by apply first_at_joined.
Qed.

Lemma extract_of_joined_uuid :
  extractProjectFromToken
    ("96688e4c-6737-4230-9591-6a3332115871" +:+ "--" +:+ "683b2148ff7e3ae67d825cfa")
  = "683b2148ff7e3ae67d825cfa".
Proof.
  apply extract_of_joined. apply Index_absent. reflexivity.
Defined.

(** X2. The tenant comes out empty exactly when the credential has no
    "--" or its first "--" is its end. *)
Theorem extract_empty_iff (token : string) :
  extractProjectFromToken token = ""
  ↔ ¬ Contains token "--"
    ∨ ∃ p, token = p +:+ "--" ∧ first_at token "--" p.
Proof.
  destruct (first_occurrence_dec token "--") as [Hno|(p & q & Hs & Hf)].
  - split; [|intros _].
    + intros _. left. intros (p & q & Heq). by destruct (Hno p q).
    + unfold extractProjectFromToken. by rewrite SplitN_2_absent.
  - assert (extractProjectFromToken token = q) as ->.
    { unfold extractProjectFromToken.
      by rewrite (SplitN_2_found _ "--" p q). }
    split.
    + intros ->. right. exists p. by rewrite app_empty_r in Hs.
    + intros [Hno|(p' & Hs' & Hf')].
      * destruct Hno. by exists p, q.
      * rewrite <- (app_empty_r "--") in Hs'.
        by destruct (first_at_unique _ _ _ _ _ _ Hs Hf Hs' Hf') as [_ ->].
Qed.

(** ** One send, one request *)

Lemma requests_app (l1 l2 : list Event) :
  requests (l1 ++ l2) = requests l1 ++ requests l2.
Proof. apply omap_app. Qed.

Lemma requests_eventsUpToDo (c : Client) (jsonData : string) :
  requests (eventsUpToDo c jsonData) = [requestOf c jsonData].
Proof. done. Qed.

Lemma requests_interpretResponse (c : Client) (ev : list Event) (resp : Response) :
  requests (oc_events (interpretResponse c ev resp)) = requests ev.
Proof.
  destruct (interpretResponse_events c ev resp) as (lvl & msg & ->).
  rewrite requests_app. simpl. apply app_nil_r.
Qed.

Lemma requests_none (events : list Event) :
  (∀ req, HTTPDo req ∉ events) → requests events = [].
Proof.
  induction events as [|e events IH]; intros Hno; [done|].
  destruct e as [lvl msg|req].
  - simpl. apply IH. intros req Hin. apply (Hno req). by right.
  - destruct (Hno req). by left.
Qed.

(** X3. A send never retries: it calls the transport at most once, and
    exactly once when an endpoint is configured, the tenant is derived,
    the payload marshals and the request can be built; the request is
    then the one built from that payload. *)
Theorem send_at_most_one_request (w : World) (c : Client)
    (result : DiscoveryResult) (shouldSend : bool) :
  let o := sendDiscoveryResult w c result shouldSend in
  (length (requests (oc_events o)) ≤ 1)%nat
  ∧ (requests (oc_events o) ≠ []
     ↔ APIEndpoint (Elchi (config c)) ≠ "" ∧ shouldSend = true
       ∧ ∃ payload jsonData,
           GetDiscoveryPayload c result = inl payload
           ∧ json_Marshal w payload = inl jsonData
           ∧ http_NewRequest w "POST" (APIEndpoint (Elchi (config c))) = None
           ∧ requests (oc_events o) = [requestOf c jsonData]).
Proof.
  intros o.
  destruct (send_cases w c result shouldSend)
    as [[_ Hno]|(payload & jsonData & He & Hs & Hp & Hm & Hn & Heq)].
  - fold o in Hno. rewrite (requests_none _ Hno). split; [simpl; lia|].
    split; [done|].
    intros (_ & _ & payload & jsonData & _ & _ & _ & [=]).
  - fold o in Heq.
    assert (requests (oc_events o) = [requestOf c jsonData]) as Hreq.
    { rewrite Heq. destruct (http_Do w (requestOf c jsonData)); simpl.
      - by rewrite requests_interpretResponse.
      - done. }
    rewrite Hreq. split; [simpl; lia|]. split; [|done].
    intros _. split_and!; [done..|]. by exists payload, jsonData.
Qed.

(** ** The request on the wire *)

Lemma GetDiscoveryPayload_inl (c : Client) (result : DiscoveryResult)
    (payload : DiscoveryPayload) :
  GetDiscoveryPayload c result = inl payload →
  payload = {| Project := extractProjectFromToken (Token (Elchi (config c)));
               Data := result |}
  ∧ extractProjectFromToken (Token (Elchi (config c))) ≠ ""
  ∧ Token (Elchi (config c)) ≠ "".
Proof.
  unfold GetDiscoveryPayload.
  destruct (decide (extractProjectFromToken (Token (Elchi (config c))) = ""))
    as [|Hne]; [done|].
  intros [= <-]. split_and!; [done..|].
  intros Hempty. apply Hne. by rewrite Hempty.
Qed.

Lemma setHeaders_keeps (c : Client) (req : Request) :
  Method (setHeaders c req) = Method req
  ∧ URL (setHeaders c req) = URL req
  ∧ Body (setHeaders c req) = Body req.
Proof.
  unfold setHeaders.
  by destruct (decide (Token (Elchi (config c)) ≠ "")), (initialCompleted c).
Qed.



(** ** When a send reports success *)

Lemma interpretResponse_err_None (c : Client) (ev : list Event) (resp : Response) :
  oc_err (interpretResponse c ev resp) = None
  ↔ 200 ≤ StatusCode resp < 300
    ∧ ∀ a, Decoded resp = inl a → Success a = true.
Proof.
  unfold interpretResponse.
  destruct (bool_decide (StatusCode resp < 200)) eqn:Hlo;
    [apply bool_decide_eq_true_1 in Hlo | apply bool_decide_eq_false_1 in Hlo];
  destruct (bool_decide (StatusCode resp >= 300)) eqn:Hhi;
    [apply bool_decide_eq_true_1 in Hhi | apply bool_decide_eq_false_1 in Hhi
    |apply bool_decide_eq_true_1 in Hhi | apply bool_decide_eq_false_1 in Hhi];
  simpl.
  1-3: split; [by repeat case_match | intros [? _]; lia].
  destruct (Decoded resp) as [a|e].
  - destruct (Success a) eqn:Hs; simpl.
    + split; [|done]. intros _. split; [lia|]. by intros a' [= <-].
    + split; [done|]. intros [_ Hall]. specialize (Hall a eq_refl). congruence.
  - split; [|done]. intros _. split; [lia | by intros a' [=]].
Qed.

(** A send that returns nil without a request was skipped. *)
Lemma send_stopped_early (w : World) (c : Client) (result : DiscoveryResult)
    (shouldSend : bool) :
  (∀ req, HTTPDo req ∉ oc_events (sendDiscoveryResult w c result shouldSend)) →
  oc_err (sendDiscoveryResult w c result shouldSend) = None →
  APIEndpoint (Elchi (config c)) = "" ∨ shouldSend = false.
Proof.
  unfold sendDiscoveryResult.
  destruct (bool_decide (APIEndpoint (Elchi (config c)) = "")) eqn:Hb.
  { left. by apply bool_decide_eq_true_1 in Hb. }
  destruct shouldSend; [|by right]. simpl.
  destruct (GetDiscoveryPayload c result) as [payload|]; [|done].
  destruct (json_Marshal w payload) as [jsonData|]; [|done].
  destruct (http_NewRequest w "POST" _); [done|].
  fold (requestOf c jsonData). intros Hno _. exfalso.
  apply (Hno (requestOf c jsonData)).
  change ([Log LDebug "Successfully extracted project from token";
           Log LDebug "Sending discovery payload to API"]
          ++ [HTTPDo (requestOf c jsonData)]) with (eventsUpToDo c jsonData).
  destruct (http_Do w _); simpl.
  - by apply interpretResponse_Do, eventsUpToDo_Do.
  - by apply eventsUpToDo_Do.
Qed.

(** X5. A send returns nil in exactly two situations: it was skipped (no
    endpoint, or not asked to send), or its request got a response with a
    status in 200-299 whose body either does not decode or decodes to
    [success = true]. *)
Theorem send_succeeds_iff (w : World) (c : Client) (result : DiscoveryResult)
    (shouldSend : bool) :
  let o := sendDiscoveryResult w c result shouldSend in
  oc_err o = None
  ↔ (APIEndpoint (Elchi (config c)) = "" ∨ shouldSend = false)
    ∨ ∃ req resp, HTTPDo req ∈ oc_events o ∧ http_Do w req = inl resp
        ∧ 200 ≤ StatusCode resp < 300
        ∧ ∀ a, Decoded resp = inl a → Success a = true.
Proof.
  intros o.
  destruct (send_cases w c result shouldSend)
    as [[_ Hno]|(payload & jsonData & He & Hs & Hp & Hm & Hn & Heq)].
  - fold o in Hno. split.
    + intros Herr. left. by apply (send_stopped_early w c result).
    + intros [[Hend| ->]|(req & _ & Hin & _)].
      * subst o. unfold sendDiscoveryResult. by rewrite bool_decide_eq_true_2.
      * subst o. unfold sendDiscoveryResult. by rewrite orb_true_r.
      * by destruct (Hno req).
  - fold o in Heq. subst shouldSend. split.
    + intros Herr. right. exists (requestOf c jsonData).
      rewrite Heq in Herr |- *.
      destruct (http_Do w (requestOf c jsonData)) as [resp|e] eqn:Hdo; [|done].
      exists resp. apply interpretResponse_err_None in Herr as [Hst Hall].
      split_and!; try done; try lia.
      by apply interpretResponse_Do, eventsUpToDo_Do.
    + intros [[?|?]|(req & resp & Hin & Hdo & Hst & Hall)]; [done..|].
      rewrite Heq in Hin |- *.
      destruct (http_Do w (requestOf c jsonData)) as [resp'|e] eqn:Hdo'.
      * apply interpretResponse_Do, eventsUpToDo_Do in Hin. subst req.
        rewrite Hdo' in Hdo. injection Hdo as ->.
        by apply interpretResponse_err_None.
      * apply eventsUpToDo_Do in Hin. subst req. congruence.
Qed.

(** ** Failures on the way to the transport *)

(** X6. With an endpoint and a tenant, each step that can fail before or
    at the transport ends the send with an error that wraps the cause
    under a prefix of its own, and leaves the client as it was: a marshal
    failure and a request-construction failure before any request is made,
    a transport failure after the one request. *)
Theorem send_local_failures (w : World) (c : Client) (result : DiscoveryResult)
    (payload : DiscoveryPayload) :
  APIEndpoint (Elchi (config c)) ≠ "" →
  GetDiscoveryPayload c result = inl payload →
  let o := SendDiscoveryResult w c result in
  (∀ err, json_Marshal w payload = inr err →
     oc_err o = Some ("failed to marshal discovery payload: " +:+ err)
     ∧ oc_client o = c ∧ requests (oc_events o) = [])
  ∧ (∀ jsonData err, json_Marshal w payload = inl jsonData →
       http_NewRequest w "POST" (APIEndpoint (Elchi (config c))) = Some err →
       oc_err o = Some ("failed to create request: " +:+ err)
       ∧ oc_client o = c ∧ requests (oc_events o) = [])
  ∧ (∀ jsonData err, json_Marshal w payload = inl jsonData →
       http_NewRequest w "POST" (APIEndpoint (Elchi (config c))) = None →
       http_Do w (requestOf c jsonData) = inr err →
       oc_err o = Some ("failed to send request: " +:+ err)
       ∧ oc_client o = c ∧ requests (oc_events o) = [requestOf c jsonData]).
Proof.
  intros Hend Hp o. subst o. unfold SendDiscoveryResult. split_and!.
  - intros err Hm. unfold sendDiscoveryResult.
    rewrite bool_decide_eq_false_2 by done. simpl. by rewrite Hp, Hm.
  - intros jsonData err Hm Hn. unfold sendDiscoveryResult.
    rewrite bool_decide_eq_false_2 by done. simpl. by rewrite Hp, Hm, Hn.
  - intros jsonData err Hm Hn Hdo.
    rewrite (send_reaches_Do _ _ _ _ _ Hend Hp Hm Hn), Hdo. done.
Qed.

Lemma send_refused_connection :
  let c := NewClient (sample_config "https://api.example.com" "uuid--project") in
  let o := SendDiscoveryResult (world_answering (inr "connection refused"))
             c empty_report in
  oc_err o = Some "failed to send request: connection refused"
  ∧ oc_client o = c ∧ requests (oc_events o) = [requestOf c "{}"].
Proof.
  intros c o.
  assert (APIEndpoint (Elchi (config c)) ≠ "") as Hend by done.
  destruct (send_local_failures (world_answering (inr "connection refused"))
              c empty_report _ Hend eq_refl) as (_ & _ & H).
  by apply (H "{}" "connection refused").
Defined.

(** ** What a send leaves alone *)

(** X7. Sends never touch the configuration or the transport settings of
    the client: at every send of a run the client still has the
    configuration and the HTTP client it started with, before and after. *)
Theorem run_keeps_configuration (c0 : Client)
    (ticks : list (World * DiscoveryResult)) (i : nat) (c : Client) (w : World)
    (o : Outcome) :
  run c0 ticks !! i = Some (c, w, o) →
  config c = config c0 ∧ httpClient c = httpClient c0
  ∧ config (oc_client o) = config c0 ∧ httpClient (oc_client o) = httpClient c0.
Proof.
  assert (∀ w c result,
            config (oc_client (SendDiscoveryResult w c result)) = config c
            ∧ httpClient (oc_client (SendDiscoveryResult w c result)) = httpClient c)
    as Hstep.
  { intros w' c' result.
    destruct (send_client w' c' result true) as [[Hc _]|[Hc _]];
      fold (SendDiscoveryResult w' c' result) in Hc; by rewrite Hc. }
  revert c0 i. induction ticks as [|[w0 r0] ticks IH]; intros c0 i Hi; [done|].
  destruct i as [|i]; simpl in Hi.
  - injection Hi as <- <- <-. destruct (Hstep w0 c0 r0). done.
  - destruct (IH _ _ Hi) as (H1 & H2 & H3 & H4).
    destruct (Hstep w0 c0 r0) as [Hc Hh].
    rewrite Hc in H1, H3. rewrite Hh in H2, H4. done.
Qed.

Lemma run_keeps_configuration_sample :
  let c0 := NewClient (sample_config "https://api.example.com" "uuid--project") in
  let c1 := initialCompleted_Store true c0 in
  config c1 = config c0 ∧ Timeout (httpClient c1) = 15000000000.
Proof.
  intros c0 c1.
  destruct (run_keeps_configuration c0
              [(world_answering (inl response_success), empty_report);
               (world_answering (inl response_unreadable), empty_report)]
              1%nat c1 (world_answering (inl response_unreadable))
              (SendDiscoveryResult (world_answering (inl response_unreadable))
                 c1 empty_report) eq_refl) as (Hc & Hh & _).
  split; [exact Hc | by rewrite Hh].
Defined.

(** ** The payload preview *)

Lemma slice_to_length (n : nat) (s : string) :
  String.length (strings.slice_to n s) = (n `min` String.length s)%nat.
Proof.
  revert s. induction n as [|n IH]; intros [|a s]; simpl; try done.
  by rewrite IH.
Qed.

Lemma slice_to_all (n : nat) (s : string) :
  (String.length s ≤ n)%nat → strings.slice_to n s = s.
Proof.
  revert s. induction n as [|n IH]; intros [|a s] Hn; simpl in *; try done.
  - lia.
  - rewrite IH; [done | lia].
Qed.

Lemma slice_to_prefix (n : nat) (s : string) :
  strings.slice_to n s +:+ strings.slice_from n s = s.
Proof.
  revert s. induction n as [|n IH]; intros [|a s]; try done.
  change (String a (strings.slice_to n s +:+ strings.slice_from n s) = String a s).
  by rewrite IH.
Qed.

(** X8. The slice bound of the preview is always within the payload, at
    most 200; a payload of up to 200 bytes is previewed whole; a longer
    one as its first 200 bytes followed by "...", 203 bytes in all. *)
Theorem jsonPreview_bounds (jsonData : string) :
  let len := Z.of_nat (String.length jsonData) in
  (0 ≤ previewLen jsonData ≤ len)%Z
  ∧ (previewLen jsonData ≤ 200)%Z
  ∧ ((len ≤ 200)%Z → jsonPreview jsonData = jsonData)
  ∧ (200 < len →
       jsonPreview jsonData = strings.slice_to 200 jsonData +:+ "..."
       ∧ jsonData = strings.slice_to 200 jsonData +:+ strings.slice_from 200 jsonData
       ∧ String.length (jsonPreview jsonData) = 203%nat)
  ∧ (String.length (jsonPreview jsonData) ≤ 203)%nat.
Proof.
  intros len. unfold jsonPreview, previewLen. fold len.
  destruct (decide (len ≤ 200)%Z) as [Hle|Hgt].
  - rewrite (bool_decide_eq_false_2 (len > 200)) by lia.
    assert (strings.slice_to
              (Z.to_nat (if bool_decide (len < 200) then len else 200)) jsonData
            = jsonData) as Hall.
    { apply slice_to_all. case_bool_decide; lia. }
    rewrite Hall. split_and!; try (case_bool_decide; lia); try done.
  - rewrite (bool_decide_eq_false_2 (len < 200)) by lia.
    rewrite (bool_decide_eq_true_2 (len > 200)) by lia.
    change (Z.to_nat 200) with 200%nat.
    assert (String.length (strings.slice_to 200 jsonData +:+ "...") = 203%nat)
      as Hlen.
    { assert (200 < String.length jsonData)%nat by (subst len; lia).
      rewrite length_app, slice_to_length.
      change (String.length "...") with 3%nat. lia. }
    split_and!; try lia.
    intros _. split_and!; [done | by rewrite slice_to_prefix | done].
Qed.

Lemma jsonPreview_of_long_payload :
  let jsonData := String.concat "" (replicate 201 "x") in
  jsonPreview jsonData = strings.slice_to 200 jsonData +:+ "..."
  ∧ String.length (jsonPreview jsonData) = 203%nat.
Proof.
  intros jsonData.
  destruct (jsonPreview_bounds jsonData) as (_ & _ & _ & Hlong & _).
  destruct Hlong as (H1 & _ & H2); [vm_compute; reflexivity|].
  split; [exact H1 | exact H2].
Defined.

(** ** Addresses *)

Lemma collectAddresses_fold (addresses : list NodeAddress)
    (m : gmap string string) (type : string) :
  foldl (λ m address, <[addr_Type address := Address address]> m) m addresses
    !! type
  = match last (filter (λ address, addr_Type address = type) addresses) with
    | Some address => Some (Address address)
    | None => m !! type
    end.
Proof.
  revert m. induction addresses as [|a rest IH]; intros m; simpl; [done|].
  rewrite IH. destruct (decide (addr_Type a = type)) as [Ha|Ha].
  - rewrite filter_cons_True by done. rewrite last_cons.
    destruct (last (filter _ rest)); [done|]. subst type. apply lookup_insert_eq.
  - rewrite filter_cons_False by done.
    destruct (last (filter _ rest)); [done|]. by apply lookup_insert_ne.
Qed.

(** X9. The address map of a node has an entry for exactly the address
    types the node reports, and under each type the address of the last
    entry of that type in the node's list: a later entry overwrites an
    earlier one. *)
Theorem collectAddresses_last_wins (addresses : list NodeAddress) (type : string) :
  collectAddresses addresses !! type
    = Address <$> last (filter (λ address, addr_Type address = type) addresses)
  ∧ (is_Some (collectAddresses addresses !! type)
     ↔ type ∈ addr_Type <$> addresses)
  ∧ (∀ pre address, addresses = pre ++ [address] →
       collectAddresses addresses !! addr_Type address = Some (Address address)).
Proof.
  assert (collectAddresses addresses !! type
          = Address <$> last (filter (λ address, addr_Type address = type) addresses))
    as Hlook.
  { unfold collectAddresses. rewrite collectAddresses_fold.
    by destruct (last _). }
  split_and!.
  - exact Hlook.
  - rewrite Hlook, fmap_is_Some. split.
    + intros [a Ha]. apply last_Some_elem_of in Ha.
      apply list_elem_of_filter in Ha as [Hty Hin].
      apply list_elem_of_fmap. by exists a.
    + intros (a & -> & Hin)%list_elem_of_fmap.
      assert (a ∈ filter (λ address, addr_Type address = addr_Type a) addresses)
        as Hf by (by apply list_elem_of_filter).
      destruct (last (filter _ addresses)) eqn:Hlast; [done|].
      apply last_None in Hlast. rewrite Hlast in Hf. by apply elem_of_nil in Hf.
  - intros pre address ->. unfold collectAddresses.
    rewrite collectAddresses_fold, filter_app.
    rewrite filter_cons_True by done. rewrite filter_nil.
    by rewrite last_snoc.
Qed.

Lemma collectAddresses_duplicate_type :
  collectAddresses
    [{| addr_Type := "InternalIP"; Address := "192.168.1.10" |};
     {| addr_Type := "ExternalIP"; Address := "10.0.0.10" |};
     {| addr_Type := "InternalIP"; Address := "192.168.1.11" |}]
    !! "InternalIP" = Some "192.168.1.11".
Proof.
  destruct (collectAddresses_last_wins
              [{| addr_Type := "InternalIP"; Address := "192.168.1.10" |};
               {| addr_Type := "ExternalIP"; Address := "10.0.0.10" |};
               {| addr_Type := "InternalIP"; Address := "192.168.1.11" |}]
              "InternalIP") as (_ & _ & Hlast).
  by apply (Hlast [{| addr_Type := "InternalIP"; Address := "192.168.1.10" |};
                   {| addr_Type := "ExternalIP"; Address := "10.0.0.10" |}]
                  {| addr_Type := "InternalIP"; Address := "192.168.1.11" |}).
Defined.

(** ** Collection as a whole *)

(** X10. Collection fails exactly when the node listing fails, with the
    listing's error unchanged, whatever the version query and the clock
    do; when it succeeds the report carries the configured cluster name,
    and as version the server's [GitVersion] if the version query returned
    one without an error and "unknown" in every other case. *)
Theorem DiscoverNodes_outcome (s : Service) :
  (∀ err, DiscoverNodes s = inr err ↔ Nodes_List (client s) = inr err)
  ∧ (∀ report, DiscoverNodes s = inl report →
       ci_Name (dr_ClusterInfo report) = clusterName s
       ∧ ci_Version (dr_ClusterInfo report)
         = match ServerVersion (client s) with
           | (Some gitVersion, None) => gitVersion
           | _ => "unknown"
           end
       ∧ Timestamp report = time_Now (client s) 1
       ∧ (0 ≤ NodeCount report)%Z).
Proof.
  split.
  - intros err. destruct (Nodes_List (client s)) as [items|e] eqn:Hlist.
    + rewrite (DiscoverNodes_listed s items Hlist). done.
    + unfold DiscoverNodes. rewrite Hlist. split; by intros [= ->].
  - intros report Hr. destruct (Nodes_List (client s)) as [items|e] eqn:Hlist.
    + rewrite (DiscoverNodes_listed s items Hlist) in Hr. injection Hr as <-.
      simpl. unfold getClusterInfo.
      destruct (ServerVersion (client s)) as [[v|] [e|]]; simpl;
        split_and!; try done; lia.
    + unfold DiscoverNodes in Hr. by rewrite Hlist in Hr.
Qed.

Lemma DiscoverNodes_listing_error :
  DiscoverNodes (NewService (sample_cluster (Some "v1.28.2", None)
                               (inr "nodes is forbidden")) "test-cluster")
  = inr "nodes is forbidden".
Proof.
  by apply (proj1 (DiscoverNodes_outcome
                     (NewService (sample_cluster (Some "v1.28.2", None)
                                    (inr "nodes is forbidden")) "test-cluster"))).
Defined.

Lemma roles_by_rule_wf (node : Node) :
  roles_by_rule node ≠ []
  ∧ NoDup (roles_by_rule node)
  ∧ roles_by_rule node ⊆ ["control-plane"; "master"; "worker"; "etcd"].
Proof.
  unfold roles_by_rule.
  destruct (label_ok node "node-role.kubernetes.io/control-plane"),
           (label_ok node "node-role.kubernetes.io/master"),
           (label_ok node "node-role.kubernetes.io/worker"),
           (label_ok node "node-role.kubernetes.io/etcd"),
           (existsb control_plane_taint (Taints node)); simpl;
    (split_and!;
     [ done
     | repeat (apply NoDup_cons_2; [role_in|]); apply NoDup_nil_2
     | intros x; role_in ]).
Qed.

Lemma status_loop_range (conditions : list NodeCondition) :
  status_loop conditions ∈ ["Ready"; "NotReady"; "Unknown"].
Proof.
  induction conditions as [|c rest IH]; simpl; [role_in|].
  destruct (decide (cond_Type c = NodeReady)); [|done].
  destruct (decide (cond_Status c = ConditionTrue)); role_in.
Qed.

(** X11. Every record of every report is well formed: its roles are a
    non-empty, duplicate-free list drawn from "control-plane", "master",
    "worker" and "etcd", and its status is "Ready", "NotReady" or
    "Unknown". *)
Theorem report_records_well_formed (s : Service) (report : DiscoveryResult)
    (record : NodeInfo) :
  DiscoverNodes s = inl report →
  record ∈ Nodes report →
  ni_Roles record ≠ []
  ∧ NoDup (ni_Roles record)
  ∧ ni_Roles record ⊆ ["control-plane"; "master"; "worker"; "etcd"]
  ∧ ni_Status record ∈ ["Ready"; "NotReady"; "Unknown"].
Proof.
  intros Hr Hin. destruct (Nodes_List (client s)) as [items|e] eqn:Hlist.
  - rewrite (DiscoverNodes_listed s items Hlist) in Hr. injection Hr as <-.
    simpl in Hin. apply list_elem_of_fmap in Hin as (node & -> & _).
    simpl. rewrite getNodeRoles_by_rule.
    destruct (roles_by_rule_wf node) as (H1 & H2 & H3).
    split_and!; try done. apply status_loop_range.
  - unfold DiscoverNodes in Hr. by rewrite Hlist in Hr.
Qed.

Lemma report_records_well_formed_sample :
  let node := sample_node "node1" ∅ [] [] in
  NoDup (ni_Roles (nodeInfoOf node))
  ∧ ni_Status (nodeInfoOf node) ∈ ["Ready"; "NotReady"; "Unknown"].
Proof.
  intros node.
  destruct (report_records_well_formed
              (NewService (sample_cluster (None, None) (inl [node])) "test-cluster")
              _ (nodeInfoOf node) eq_refl) as (_ & Hnd & _ & Hst).
  - by left.
  - split; [exact Hnd | exact Hst].
Defined.

(** X12. Only the presence of the role labels and the keys of the taints
    enter role derivation: two nodes that carry the same four role labels,
    with whatever values, and the same taint keys in the same order, get
    the same roles. *)
Theorem getNodeRoles_ignores_values (n1 n2 : Node) :
  (∀ key, key ∈ ["node-role.kubernetes.io/control-plane";
                 "node-role.kubernetes.io/master";
                 "node-role.kubernetes.io/worker";
                 "node-role.kubernetes.io/etcd"] →
     (is_Some (Labels n1 !! key) ↔ is_Some (Labels n2 !! key))) →
  Key <$> Taints n1 = Key <$> Taints n2 →
  getNodeRoles n1 = getNodeRoles n2.
Proof.
  intros Hlabels Htaints.
  assert (∀ key, key ∈ ["node-role.kubernetes.io/control-plane";
                        "node-role.kubernetes.io/master";
                        "node-role.kubernetes.io/worker";
                        "node-role.kubernetes.io/etcd"] →
            label_ok n1 key = label_ok n2 key) as Hok.
  { intros key Hkey. unfold label_ok. apply bool_decide_ext. by apply Hlabels. }
  assert (existsb control_plane_taint (Taints n1)
          = existsb control_plane_taint (Taints n2)) as Hex.
  { generalize dependent (Taints n2). induction (Taints n1) as [|t1 l1 IH];
      intros [|t2 l2] Heq; try done.
    injection Heq as Hk Hrest. simpl. rewrite (IH l2 Hrest).
    unfold control_plane_taint. by rewrite Hk. }
  rewrite !getNodeRoles_by_rule. unfold roles_by_rule.
  rewrite !Hok, Hex by role_in. done.
Qed.

Lemma getNodeRoles_label_value_false :
  getNodeRoles (sample_node "node1"
                  {[ "node-role.kubernetes.io/worker" := "false" ]} [] [])
  = getNodeRoles (sample_node "node1"
                    {[ "node-role.kubernetes.io/worker" := "" ]} [] []).
Proof.
  apply getNodeRoles_ignores_values; [|done].
  intros key Hkey. simpl. rewrite !lookup_singleton.
  case_decide; [|done]. split; by eexists.
Defined.

(** ** Configuration *)

Lemma FullConfig_ext (a b : FullConfig) :
  fc_DiscoveryInterval a = fc_DiscoveryInterval b →
  ClusterName (fc_base a) = ClusterName (fc_base b) →
  lc_Level (fc_Log a) = lc_Level (fc_Log b) →
  lc_Format (fc_Log a) = lc_Format (fc_Log b) →
  lc_Output (fc_Log a) = lc_Output (fc_Log b) →
  Token (Elchi (fc_base a)) = Token (Elchi (fc_base b)) →
  APIEndpoint (Elchi (fc_base a)) = APIEndpoint (Elchi (fc_base b)) →
  InsecureSkipVerify (Elchi (fc_base a)) = InsecureSkipVerify (Elchi (fc_base b)) →
  a = b.
Proof.
  destruct a as [[[? ? ?] ?] [? ? ?] ?], b as [[[? ? ?] ?] [? ? ?] ?]; simpl.
  by intros -> -> -> -> -> -> -> ->.
Qed.

(** X13. Applying the environment sets every field to what the
    [getEnvOrDefault] helper of its type returns for the field's variable
    with the field's current value as default: a variable that is unset,
    empty, or (for the interval and the TLS flag) does not parse leaves
    the field as it is, any other value replaces it. *)
Theorem applyEnvironmentVariables_fields (os : OS) (config : FullConfig) :
  let config' := applyEnvironmentVariables os config in
  fc_DiscoveryInterval config'
    = getEnvOrDefaultInt os "DISCOVERY_INTERVAL" (fc_DiscoveryInterval config)
  ∧ ClusterName (fc_base config')
    = getEnvOrDefault os "CLUSTER_NAME" (ClusterName (fc_base config))
  ∧ lc_Level (fc_Log config')
    = getEnvOrDefault os "LOG_LEVEL" (lc_Level (fc_Log config))
  ∧ lc_Format (fc_Log config')
    = getEnvOrDefault os "LOG_FORMAT" (lc_Format (fc_Log config))
  ∧ lc_Output (fc_Log config')
    = getEnvOrDefault os "LOG_OUTPUT" (lc_Output (fc_Log config))
  ∧ Token (Elchi (fc_base config'))
    = getEnvOrDefault os "ELCHI_TOKEN" (Token (Elchi (fc_base config)))
  ∧ APIEndpoint (Elchi (fc_base config'))
    = getEnvOrDefault os "ELCHI_API_ENDPOINT" (APIEndpoint (Elchi (fc_base config)))
  ∧ InsecureSkipVerify (Elchi (fc_base config'))
    = getEnvOrDefaultBool os "ELCHI_INSECURE_SKIP_VERIFY"
        (InsecureSkipVerify (Elchi (fc_base config))).
Proof.
  unfold applyEnvironmentVariables, env_string, getEnvOrDefault,
    getEnvOrDefaultInt, getEnvOrDefaultBool.
  destruct (decide (os_Getenv os "DISCOVERY_INTERVAL" ≠ "")),
           (strconv_Atoi os (os_Getenv os "DISCOVERY_INTERVAL")),
           (decide (os_Getenv os "CLUSTER_NAME" ≠ "")),
           (decide (os_Getenv os "LOG_LEVEL" ≠ "")),
           (decide (os_Getenv os "LOG_FORMAT" ≠ "")),
           (decide (os_Getenv os "LOG_OUTPUT" ≠ "")),
           (decide (os_Getenv os "ELCHI_TOKEN" ≠ "")),
           (decide (os_Getenv os "ELCHI_API_ENDPOINT" ≠ "")),
           (decide (os_Getenv os "ELCHI_INSECURE_SKIP_VERIFY" ≠ "")),
           (strconv_ParseBool os (os_Getenv os "ELCHI_INSECURE_SKIP_VERIFY"));
    done.
Qed.

Lemma getEnvOrDefault_twice (os : OS) (key v : string) :
  getEnvOrDefault os key (getEnvOrDefault os key v) = getEnvOrDefault os key v.
Proof. unfold getEnvOrDefault. by destruct (decide _). Qed.

Lemma getEnvOrDefaultInt_twice (os : OS) (key : string) (v : Z) :
  getEnvOrDefaultInt os key (getEnvOrDefaultInt os key v)
  = getEnvOrDefaultInt os key v.
Proof.
  unfold getEnvOrDefaultInt. destruct (decide _); [|done].
  by destruct (strconv_Atoi os _).
Qed.

Lemma getEnvOrDefaultBool_twice (os : OS) (key : string) (v : bool) :
  getEnvOrDefaultBool os key (getEnvOrDefaultBool os key v)
  = getEnvOrDefaultBool os key v.
Proof.
  unfold getEnvOrDefaultBool. destruct (decide _); [|done].
  by destruct (strconv_ParseBool os _).
Qed.

(** X14. Applying the environment a second time changes nothing, and with
    none of the eight variables set to a non-empty value it changes
    nothing the first time. *)
Theorem applyEnvironmentVariables_idempotent (os : OS) (config : FullConfig) :
  applyEnvironmentVariables os (applyEnvironmentVariables os config)
    = applyEnvironmentVariables os config
  ∧ ((∀ key, key ∈ ["DISCOVERY_INTERVAL"; "CLUSTER_NAME"; "LOG_LEVEL";
                    "LOG_FORMAT"; "LOG_OUTPUT"; "ELCHI_TOKEN";
                    "ELCHI_API_ENDPOINT"; "ELCHI_INSECURE_SKIP_VERIFY"] →
        os_Getenv os key = "") →
     applyEnvironmentVariables os config = config).
Proof.
  split.
  - destruct (applyEnvironmentVariables_fields os config)
      as (H1 & H2 & H3 & H4 & H5 & H6 & H7 & H8).
    destruct (applyEnvironmentVariables_fields os
                (applyEnvironmentVariables os config))
      as (G1 & G2 & G3 & G4 & G5 & G6 & G7 & G8).
    apply FullConfig_ext.
    + by rewrite G1, H1, getEnvOrDefaultInt_twice.
    + by rewrite G2, H2, getEnvOrDefault_twice.
    + by rewrite G3, H3, getEnvOrDefault_twice.
    + by rewrite G4, H4, getEnvOrDefault_twice.
    + by rewrite G5, H5, getEnvOrDefault_twice.
    + by rewrite G6, H6, getEnvOrDefault_twice.
    + by rewrite G7, H7, getEnvOrDefault_twice.
    + by rewrite G8, H8, getEnvOrDefaultBool_twice.
  - intros Hunset.
    destruct (applyEnvironmentVariables_fields os config)
      as (H1 & H2 & H3 & H4 & H5 & H6 & H7 & H8).
    unfold getEnvOrDefault, getEnvOrDefaultInt, getEnvOrDefaultBool in *.
    rewrite !Hunset in * by role_in.
    by apply FullConfig_ext.
Qed.

Lemma applyEnvironmentVariables_no_variables :
  applyEnvironmentVariables (sample_os ∅) default_config = default_config.
Proof.
  apply (proj2 (applyEnvironmentVariables_idempotent (sample_os ∅) default_config)).
  intros key _. reflexivity.
Defined.

Lemma os_Getenv_empty_or_unset (os : OS) (vars : gmap string string)
    (key k : string) :
  os_Getenv (with_environ (<[key := ""]> vars) os) k
  = os_Getenv (with_environ (delete key vars) os) k.
Proof.
  unfold os_Getenv. simpl. destruct (decide (key = k)) as [->|Hne].
  - by rewrite lookup_insert_eq, lookup_delete_eq.
  - by rewrite lookup_insert_ne, lookup_delete_ne.
Qed.

(** X15. To [Load], and to the three [getEnvOrDefault] helpers, a variable
    that is set to the empty string is the same as a variable that is not
    set. *)
Theorem empty_variable_is_unset (os : OS) (vars : gmap string string)
    (key : string) :
  let os_empty := with_environ (<[key := ""]> vars) os in
  let os_unset := with_environ (delete key vars) os in
  Load os_empty = Load os_unset
  ∧ (∀ k d, getEnvOrDefault os_empty k d = getEnvOrDefault os_unset k d)
  ∧ (∀ k d, getEnvOrDefaultInt os_empty k d = getEnvOrDefaultInt os_unset k d)
  ∧ (∀ k d, getEnvOrDefaultBool os_empty k d = getEnvOrDefaultBool os_unset k d).
Proof.
  intros os_empty os_unset.
  assert (∀ k, os_Getenv os_empty k = os_Getenv os_unset k) as Hget
    by apply os_Getenv_empty_or_unset.
  split_and!.
  - unfold Load, getConfigPath, loadConfigFile, applyEnvironmentVariables,
      env_string.
    rewrite !Hget. done.
  - intros k d. unfold getEnvOrDefault. by rewrite Hget.
  - intros k d. unfold getEnvOrDefaultInt. by rewrite Hget.
  - intros k d. unfold getEnvOrDefaultBool. by rewrite Hget.
Qed.

(** X16. A non-empty ELCHI_CONFIG is taken as the configuration file as
    it stands: [Load] reads and decodes that file and no other, fails with
    the read error or the decode error if either step fails, and neither
    the home directory nor the working directory has any influence. *)
Theorem Load_explicit_path (os : OS) :
  os_Getenv os "ELCHI_CONFIG" ≠ "" →
  getConfigPath os = os_Getenv os "ELCHI_CONFIG"
  ∧ Load os
    = match os_ReadFile os (os_Getenv os "ELCHI_CONFIG") with
      | inr err => inr err
      | inl data =>
          match yaml_Unmarshal os data default_config with
          | inr err => inr err
          | inl config => inl (applyEnvironmentVariables os config)
          end
      end.
Proof.
  intros Hset.
  assert (getConfigPath os = os_Getenv os "ELCHI_CONFIG") as Hpath.
  { unfold getConfigPath. by destruct (decide _). }
  split; [done|]. unfold Load. rewrite Hpath.
  destruct (decide _); [|done]. unfold loadConfigFile.
  destruct (os_ReadFile os _); [|done]. by destruct (yaml_Unmarshal os _ _).
Qed.

Lemma Load_missing_explicit_file :
  Load (sample_os {[ "ELCHI_CONFIG" := "/non/existent/config.yaml" ]})
  = inr "no such file or directory".
Proof.
  assert (os_Getenv (sample_os {[ "ELCHI_CONFIG" := "/non/existent/config.yaml" ]})
            "ELCHI_CONFIG" ≠ "") as Hset by done.
  destruct (Load_explicit_path _ Hset) as [_ ->]. reflexivity.
Defined.

(** X17. Without ELCHI_CONFIG the search is: the file under the home
    directory if the home directory is known and the file exists, else
    "config.yaml" in the working directory if it exists, else no file. A
    path that comes out of the search names a file that exists. *)
Theorem getConfigPath_search (os : OS) :
  os_Getenv os "ELCHI_CONFIG" = "" →
  (∀ home, os_UserHomeDir os = inl home →
     os_Stat_ok os (filepath_Join os [home; ".elchi"; "config.yaml"]) = true →
     getConfigPath os = filepath_Join os [home; ".elchi"; "config.yaml"])
  ∧ ((∀ home, os_UserHomeDir os = inl home →
        os_Stat_ok os (filepath_Join os [home; ".elchi"; "config.yaml"]) = false) →
     getConfigPath os = if os_Stat_ok os "config.yaml" then "config.yaml" else "")
  ∧ (getConfigPath os ≠ "" → os_Stat_ok os (getConfigPath os) = true).
Proof.
  intros Hunset. unfold getConfigPath. rewrite Hunset.
  destruct (decide ("" ≠ "")); [done|].
  destruct (os_UserHomeDir os) as [home|e].
  - destruct (os_Stat_ok os (filepath_Join os [home; ".elchi"; "config.yaml"]))
      eqn:Hhome.
    + split_and!.
      * by intros home' [= <-] _.
      * intros Hnone. specialize (Hnone home eq_refl). congruence.
      * done.
    + split_and!.
      * intros home' [= <-] Hex. congruence.
      * done.
      * by destruct (os_Stat_ok os "config.yaml") eqn:Hcwd.
  - split_and!.
    + by intros home [=].
    + done.
    + by destruct (os_Stat_ok os "config.yaml") eqn:Hcwd.
Qed.

Lemma getConfigPath_nothing_found : getConfigPath (sample_os ∅) = "".
Proof.
  assert (os_Getenv (sample_os ∅) "ELCHI_CONFIG" = "") as Hunset by reflexivity.
  destruct (getConfigPath_search (sample_os ∅) Hunset) as (_ & Hcwd & _).
  by apply Hcwd.
Defined.

(** X18. When no configuration file is found, [Load] cannot fail and
    reads no file: it returns the defaults with the environment applied,
    and the defaults themselves (interval 30, log "info"/"text"/"stdout",
    no cluster name, no token, no endpoint, TLS verification on) when none
    of the eight variables is set. *)
Theorem Load_without_file (os : OS) :
  getConfigPath os = "" →
  Load os = inl (applyEnvironmentVariables os default_config)
  ∧ ((∀ key, key ∈ ["DISCOVERY_INTERVAL"; "CLUSTER_NAME"; "LOG_LEVEL";
                    "LOG_FORMAT"; "LOG_OUTPUT"; "ELCHI_TOKEN";
                    "ELCHI_API_ENDPOINT"; "ELCHI_INSECURE_SKIP_VERIFY"] →
        os_Getenv os key = "") →
     Load os = inl default_config).
Proof.
  intros Hpath.
  assert (Load os = inl (applyEnvironmentVariables os default_config)) as Hload.
  { unfold Load. rewrite Hpath. by destruct (decide ("" ≠ "")). }
  split; [done|]. intros Hunset. rewrite Hload. f_equal.
  by apply applyEnvironmentVariables_idempotent.
Qed.

Lemma Load_with_environment_only :
  Load (sample_os {[ "CLUSTER_NAME" := "env-cluster";
                     "DISCOVERY_INTERVAL" := "60";
                     "ELCHI_INSECURE_SKIP_VERIFY" := "maybe" ]})
  = inl (set_ClusterName "env-cluster" (set_DiscoveryInterval 60 default_config)).
Proof.
  assert (getConfigPath
            (sample_os {[ "CLUSTER_NAME" := "env-cluster";
                          "DISCOVERY_INTERVAL" := "60";
                          "ELCHI_INSECURE_SKIP_VERIFY" := "maybe" ]}) = "")
    as Hpath by reflexivity.
  destruct (Load_without_file _ Hpath) as [-> _].
  reflexivity.
Defined.

(** ** The tick interval *)

(** X19. For every configured interval up to 9223372036 seconds the tick
    interval is positive and does not overflow: 30 seconds when the
    configured value is zero or negative, the configured number of seconds
    otherwise. *)
Theorem tickInterval_positive (cfg : FullConfig) :
  (- 2 ^ 63 ≤ fc_DiscoveryInterval cfg ≤ 9223372036)%Z →
  ((fc_DiscoveryInterval cfg ≤ 0)%Z → tickInterval cfg = (30 * Second)%Z)
  ∧ ((0 < fc_DiscoveryInterval cfg)%Z →
       tickInterval cfg = (fc_DiscoveryInterval cfg * Second)%Z)
  ∧ (0 < tickInterval cfg)%Z.
Proof.
  intros Hrange. unfold tickInterval, wrap64, Second.
  case_bool_decide as Hle.
  - rewrite (Z.mod_small (30 + 2 ^ 63)) by lia.
    replace (30 + 2 ^ 63 - 2 ^ 63)%Z with 30%Z by lia.
    rewrite Z.mod_small by lia. split_and!; [lia | lia | lia].
  - rewrite (Z.mod_small (fc_DiscoveryInterval cfg + 2 ^ 63)) by lia.
    replace (fc_DiscoveryInterval cfg + 2 ^ 63 - 2 ^ 63)%Z
      with (fc_DiscoveryInterval cfg) by lia.
    rewrite Z.mod_small by lia. split_and!; [lia | lia | lia].
Qed.

Lemma tickInterval_of_unset_interval :
  tickInterval (set_DiscoveryInterval 0 default_config) = 30000000000.
Proof.
  destruct (tickInterval_positive (set_DiscoveryInterval 0 default_config))
    as (Hdefault & _ & _); [simpl; lia|].
  by apply Hdefault.
Defined.

(** ** One round of discovery *)

(** X20. A round prints the payload exactly when the collection succeeds,
    the credential yields a tenant and the indented encoding succeeds, and
    what it prints is the indented encoding of that envelope. The endpoint
    plays no part: with a credential that yields no tenant nothing is
    printed even when no endpoint is configured. *)
Theorem runDiscovery_prints_iff (indent : DiscoveryPayload -> string + error)
    (w : World) (discoveryService : Service) (apiClient : Client) (line : string) :
  Println line ∈ (runDiscovery indent w discoveryService apiClient).2
  ↔ ∃ result payload,
      DiscoverNodes discoveryService = inl result
      ∧ GetDiscoveryPayload apiClient result = inl payload
      ∧ indent payload = inl line.
Proof.
  unfold runDiscovery.
  destruct (DiscoverNodes discoveryService) as [result|e].
  2:{ simpl. split.
      - intros [[=]|[]%elem_of_nil]%elem_of_cons.
      - by intros (? & ? & [=] & _). }
  destruct (GetDiscoveryPayload apiClient result) as [payload|e] eqn:Hp.
  2:{ simpl. split.
      - intros [[=]|[]%elem_of_nil]%elem_of_cons.
      - intros (? & ? & [= <-] & Hp' & _). congruence. }
  destruct (indent payload) as [jsonOutput|e] eqn:Hind.
  2:{ simpl. split.
      - intros [[=]|[]%elem_of_nil]%elem_of_cons.
      - intros (? & ? & [= <-] & Hp' & Hl). congruence. }
  simpl. split.
  - intros [[= ->]|Hin]%elem_of_cons; [by exists result, payload|].
    exfalso. rewrite !elem_of_app in Hin. destruct Hin as [Hin|[Hin|Hin]].
    + apply list_elem_of_fmap in Hin as (? & [=] & _).
    + destruct (oc_err _); [|by apply elem_of_nil in Hin].
      by apply list_elem_of_singleton in Hin.
    + by apply list_elem_of_singleton in Hin.
  - intros (? & ? & [= <-] & Hp' & Hl).
    assert (jsonOutput = line) as -> by congruence. by left.
Qed.

Lemma transmitted_request_body (w : World) (c : Client)
    (result : DiscoveryResult) (req : Request) :
  HTTPDo req ∈ oc_events (SendDiscoveryResult w c result) →
  extractProjectFromToken (Token (Elchi (config c))) ≠ ""
  ∧ json_Marshal w {| Project := extractProjectFromToken (Token (Elchi (config c)));
                      Data := result |} = inl (Body req).
Proof.
  intros Hin.
  destruct (send_Do_inv _ _ _ _ _ Hin)
    as (payload & jsonData & _ & _ & Hp & Hm & _ & -> & _).
  destruct (GetDiscoveryPayload_inl _ _ _ Hp) as (-> & Hproj & _).
  split; [done|].
  destruct (setHeaders_keeps c
              {| Method := "POST"; URL := APIEndpoint (Elchi (config c));
                 Header := ∅; Body := jsonData |}) as (_ & _ & Hbody).
  fold (requestOf c jsonData) in Hbody. by rewrite Hbody.
Qed.

(** X21. Whatever a round transmits it has printed first: if a request
    goes out, the events of the round begin with the printed line, and the
    printed line and the request body are the two encodings of one
    envelope, the one made of the tenant and the report just collected. *)
Theorem runDiscovery_prints_before_sending
    (indent : DiscoveryPayload -> string + error) (w : World)
    (discoveryService : Service) (apiClient : Client) (req : Request) :
  ClientEvent (HTTPDo req) ∈ (runDiscovery indent w discoveryService apiClient).2 →
  ∃ result payload line rest,
    DiscoverNodes discoveryService = inl result
    ∧ payload = {| Project := extractProjectFromToken
                                (Token (Elchi (config apiClient)));
                   Data := result |}
    ∧ indent payload = inl line
    ∧ json_Marshal w payload = inl (Body req)
    ∧ (runDiscovery indent w discoveryService apiClient).2 = Println line :: rest.
Proof.
  unfold runDiscovery.
  destruct (DiscoverNodes discoveryService) as [result|e].
  2:{ simpl. intros [[=]|[]%elem_of_nil]%elem_of_cons. }
  destruct (GetDiscoveryPayload apiClient result) as [payload|e] eqn:Hp.
  2:{ simpl. intros [[=]|[]%elem_of_nil]%elem_of_cons. }
  destruct (indent payload) as [jsonOutput|e] eqn:Hind.
  2:{ simpl. intros [[=]|[]%elem_of_nil]%elem_of_cons. }
  simpl. intros [[=]|Hin]%elem_of_cons.
  rewrite !elem_of_app in Hin. destruct Hin as [Hin|[Hin|Hin]].
  - apply list_elem_of_fmap in Hin as (e & [= <-] & Hin).
    destruct (transmitted_request_body w apiClient result req Hin) as [Hproj Hbody].
    destruct (GetDiscoveryPayload_inl _ _ _ Hp) as (-> & _).
    eexists result, _, jsonOutput, _. split_and!; done.
  - destruct (oc_err _); [|by apply elem_of_nil in Hin].
    by apply list_elem_of_singleton in Hin.
  - by apply list_elem_of_singleton in Hin.
Qed.

(** X22. A round never changes the client's configuration and never
    unsets its lifecycle flag; a round that prints nothing returns the
    client as it got it; and a round that has printed always runs to its
    end, "Discovery completed" being its last event whether or not the
    send failed. *)
Theorem runDiscovery_client (indent : DiscoveryPayload -> string + error)
    (w : World) (discoveryService : Service) (apiClient : Client) :
  let round := runDiscovery indent w discoveryService apiClient in
  config round.1 = config apiClient
  ∧ (initialCompleted apiClient = true → initialCompleted round.1 = true)
  ∧ ((∀ line, Println line ∉ round.2) → round.1 = apiClient)
  ∧ ((∃ line, Println line ∈ round.2) →
       last round.2 = Some (MLog LInfo "Discovery completed")).
Proof.
  unfold runDiscovery.
  destruct (DiscoverNodes discoveryService) as [result|e].
  2:{ simpl. split_and!; try done.
      intros [line [[=]|[]%elem_of_nil]%elem_of_cons]. }
  destruct (GetDiscoveryPayload apiClient result) as [payload|e].
  2:{ simpl. split_and!; try done.
      intros [line [[=]|[]%elem_of_nil]%elem_of_cons]. }
  destruct (indent payload) as [jsonOutput|e].
  2:{ simpl. split_and!; try done.
      intros [line [[=]|[]%elem_of_nil]%elem_of_cons]. }
  simpl.
  destruct (send_client w apiClient result true) as [[Hc _]|[Hc _]];
    fold (SendDiscoveryResult w apiClient result) in Hc; rewrite Hc.
  - split_and!; try done.
    + intros Hno. destruct (Hno jsonOutput). by left.
    + intros _. by rewrite app_assoc, app_comm_cons, last_snoc.
  - split_and!; try done.
    intros _. by rewrite app_assoc, app_comm_cons, last_snoc.
Qed.

Lemma runDiscovery_failed_send_completes :
  let c := NewClient (sample_config "https://api.example.com" "uuid--project") in
  let round := runDiscovery (λ _, inl "{ }")
                 (world_answering (inr "connection refused"))
                 (NewService (sample_cluster (None, None) (inl [])) "test-cluster")
                 c in
  last round.2 = Some (MLog LInfo "Discovery completed").
Proof.
  intros c round.
  destruct (runDiscovery_client (λ _, inl "{ }")
              (world_answering (inr "connection refused"))
              (NewService (sample_cluster (None, None) (inl [])) "test-cluster") c)
    as (_ & _ & _ & Hlast).
  apply Hlast. exists "{ }". by left.
Defined.

Lemma runDiscovery_round_client (indent : DiscoveryPayload -> string + error)
    (w : World) (discoveryService : Service) (apiClient : Client) :
  config (runDiscovery indent w discoveryService apiClient).1 = config apiClient
  ∧ (initialCompleted apiClient = true →
     initialCompleted (runDiscovery indent w discoveryService apiClient).1 = true).
Proof.
  unfold runDiscovery.
  destruct (DiscoverNodes discoveryService) as [result|e]; [|done].
  destruct (GetDiscoveryPayload apiClient result) as [payload|e]; [|done].
  destruct (indent payload) as [jsonOutput|e]; [|done].
  simpl.
  destruct (send_client w apiClient result true) as [[Hc _]|[Hc _]];
    fold (SendDiscoveryResult w apiClient result) in Hc; by rewrite Hc.
Qed.

(** ** Startup and the loop *)



(** X24. Over any number of rounds on one client the configuration stays
    what it was, a lifecycle flag that is set stays set, and every round
    leaves its own list of events. *)
Theorem main_rounds_invariant (apiClient : Client)
    (rounds : list ((DiscoveryPayload -> string + error) * World * Service)) :
  let final := main_rounds apiClient rounds in
  config final.1 = config apiClient
  ∧ (initialCompleted apiClient = true → initialCompleted final.1 = true)
  ∧ length final.2 = length rounds.
Proof.
  revert apiClient.
  induction rounds as [|[[indent w] s] rounds IH]; intros apiClient; [done|].
  simpl.
  destruct (runDiscovery_round_client indent w s apiClient) as [Hcfg Hflag].
  destruct (runDiscovery indent w s apiClient) as [c1 events]. simpl in *.
  specialize (IH c1). destruct (main_rounds c1 rounds) as [final later].
  simpl in *. destruct IH as (IH1 & IH2 & IH3).
  split_and!.
  - by rewrite IH1.
  - intros Hset. by apply IH2, Hflag.
  - by rewrite IH3.
Qed.

Lemma runDiscovery_prints_before_sending_sample :
  let c := NewClient (sample_config "https://api.example.com" "uuid--project") in
  let s := NewService (sample_cluster (None, None) (inl [])) "test-cluster" in
  ∃ rest,
    (runDiscovery (λ _, inl "{ }") (world_answering (inl response_success)) s c).2
    = Println "{ }" :: rest.
Proof.
  intros c s.
  assert (ClientEvent (HTTPDo (requestOf c "{}"))
            ∈ (runDiscovery (λ _, inl "{ }")
                 (world_answering (inl response_success)) s c).2) as Hin.
  { apply elem_of_cons. right. apply elem_of_app. left.
    apply list_elem_of_fmap. exists (HTTPDo (requestOf c "{}")). split; [done|].
    apply (interpretResponse_Do c (eventsUpToDo c "{}") response_success).
    by apply eventsUpToDo_Do. }
  destruct (runDiscovery_prints_before_sending _ _ _ _ _ Hin)
    as (result & payload & line & rest & _ & _ & Hline & _ & Heq).
  injection Hline as <-. by exists rest.
Defined.
